(** * Detection fusion pipeline of the aircraft-defect ML service

    A shallow embedding of
      - services/ensemble_aggregator.py  (EnsembleAggregator),
      - services/gpt_vision_client.py    (GPTVisionClient.parse_response),
      - services/image_preprocessor.py   (validate_dimensions,
                                          calculate_quality_score).

    Conventions of the embedding.
      - Python [int] is [Z]; Python [float] is an exact rational [Q]
        (no rounding, no NaN or infinities), compared up to [Qeq].
      - A detection is a Python dict that the aggregator mutates in place
        and passes around by reference.  Detections therefore live in a
        store ([list Detection], addressed by position) and the lists the
        aggregator works on are lists of references ([loc]).
      - A Python call that can raise returns an [outcome]. *)

From Stdlib Require Import ZArith QArith Qround Qabs Qminmax Lia Lqa String Ascii.
From stdpp Require Import base list sorting gmap strings pretty.

(** ** Python values and outcomes *)

Inductive exn :=
| ValueError
| TypeError
| AttributeError
| JSONDecodeError
| Exception.

Inductive outcome (A : Type) :=
| Returns (a : A)
| Raises (e : exn).
Arguments Returns {A} a.
Arguments Raises {A} e.

Global Instance outcome_ret : MRet outcome := fun A a => Returns a.

Global Instance outcome_bind : MBind outcome := fun A B k m =>
  match m with
  | Returns a => k a
  | Raises e => Raises e
  end.

(** The result of [json.loads]: ints and floats are kept apart because
    [int()] and [float()] treat them differently. *)
#[warnings="-register-all"]
Inductive json :=
| JNull
| JBool (b : bool)
| JInt (n : Z)
| JFloat (f : Q)
| JStr (s : string)
| JArr (items : list json)
| JObj (fields : list (string * json)).

(** [a > b] and [a < b] on floats. *)
Definition Qlt_bool (a b : Q) : bool := negb (Qle_bool b a).

(** [a / b] on two ints: true division. *)
Definition py_truediv (a b : Z) : Q := (inject_Z a / inject_Z b)%Q.

(** [int(f)] on a float: truncation toward zero. *)
Definition py_int_of_float (f : Q) : Z := Z.quot (Qnum f) (Zpos (Qden f)).

(** ** Bounding boxes and [calculate_iou] *)

Record BBox := mkBBox {
  bbox_x : Z;
  bbox_y : Z;
  bbox_width : Z;
  bbox_height : Z
}.

Definition bbox_area (b : BBox) : Z := (bbox_width b * bbox_height b)%Z.

(** The corners of the overlap rectangle, as [calculate_iou] computes them. *)
Definition x_left (bbox1 bbox2 : BBox) : Z := Z.max (bbox_x bbox1) (bbox_x bbox2).
Definition y_top (bbox1 bbox2 : BBox) : Z := Z.max (bbox_y bbox1) (bbox_y bbox2).
Definition x_right (bbox1 bbox2 : BBox) : Z :=
  Z.min (bbox_x bbox1 + bbox_width bbox1) (bbox_x bbox2 + bbox_width bbox2).
Definition y_bottom (bbox1 bbox2 : BBox) : Z :=
  Z.min (bbox_y bbox1 + bbox_height bbox1) (bbox_y bbox2 + bbox_height bbox2).

Definition intersection_area (bbox1 bbox2 : BBox) : Z :=
  ((x_right bbox1 bbox2 - x_left bbox1 bbox2)
   * (y_bottom bbox1 bbox2 - y_top bbox1 bbox2))%Z.

Definition union_area (bbox1 bbox2 : BBox) : Z :=
  (bbox_area bbox1 + bbox_area bbox2 - intersection_area bbox1 bbox2)%Z.

Definition calculate_iou (bbox1 bbox2 : BBox) : Q :=
  if (x_right bbox1 bbox2 <? x_left bbox1 bbox2)%Z
     || (y_bottom bbox1 bbox2 <? y_top bbox1 bbox2)%Z
  then 0%Q
  else if (0 <? union_area bbox1 bbox2)%Z
       then py_truediv (intersection_area bbox1 bbox2) (union_area bbox1 bbox2)
       else 0%Q.

(** Two boxes whose overlap rectangle has no interior. *)
Definition non_overlapping (bbox1 bbox2 : BBox) : Prop :=
  (x_right bbox1 bbox2 <= x_left bbox1 bbox2)%Z
  ∨ (y_bottom bbox1 bbox2 <= y_top bbox1 bbox2)%Z.

(** ** Detections and the store *)

Record Detection := mkDetection {
  det_class : string;
  det_confidence : Q;
  det_bbox : BBox;
  det_source : option string;
  det_description : option json
}.

Definition loc := nat.

Global Instance Detection_inhabited : Inhabited Detection :=
  populate (mkDetection "" 0%Q (mkBBox 0 0 0 0) None None).

(** [h !!! l] reads the dict a reference points to.  References held by a
    Python program always point to a live object, so the default value is
    never read on a well-formed store ([refs_valid] below). *)
Definition deref (h : list Detection) (l : loc) : Detection := h !!! l.

Definition refs_valid (h : list Detection) (refs : list loc) : Prop :=
  Forall (fun l => l < length h) refs.

(** The keys of a detection that tagging leaves alone. *)
Definition payload (d : Detection) : string * Q * BBox * option json :=
  (det_class d, det_confidence d, det_bbox d, det_description d).

Definition set_source (s : string) (d : Detection) : Detection :=
  {| det_class := det_class d;
     det_confidence := det_confidence d;
     det_bbox := det_bbox d;
     det_source := Some s;
     det_description := det_description d |}.

(** [for det in results: det['source'] = s] *)
Definition tag_all (s : string) (results : list loc) (h : list Detection)
  : list Detection :=
  foldl (fun h' det => alter (set_source s) det h') h results.

(** A fresh dict: the new object's reference is the next free position. *)
Definition alloc (h : list Detection) (d : Detection) : list Detection * loc :=
  (h ++ [d], length h).


(** ** EnsembleAggregator *)

Record EnsembleAggregator := mkAggregator {
  yolo_weight : Q;
  gpt_weight : Q;
  iou_threshold : Q;
  nms_threshold : Q
}.

(** The constructor's default arguments. *)
Definition default_aggregator : EnsembleAggregator :=
  mkAggregator (6 # 10) (4 # 10) (5 # 10) (4 # 10).

Section Aggregator.

Variable self : EnsembleAggregator.

(** *** apply_nms *)

(** [sorted(detections, key=lambda x: x['confidence'], reverse=True)]:
    Python's sort is stable, also with [reverse=True], so an element is
    inserted after the elements of strictly larger key only. *)
Fixpoint insert_desc (key : loc → Q) (x : loc) (l : list loc) : list loc :=
  match l with
  | [] => [x]
  | y :: l' =>
      if Qlt_bool (key x) (key y) then y :: insert_desc key x l' else x :: l
  end.

Definition sorted_desc (key : loc → Q) (l : list loc) : list loc :=
  foldr (insert_desc key) [] l.

(** The body of the inner [for det in sorted_detections] loop: does [det]
    go to [filtered]? *)
Definition nms_keeps (h : list Detection) (current det : loc) : bool :=
  if String.eqb (det_class (deref h det)) (det_class (deref h current)) then
    let iou := calculate_iou (det_bbox (deref h current)) (det_bbox (deref h det)) in
    Qlt_bool iou (nms_threshold self)
  else true.

Fixpoint nms_filter (h : list Detection) (current : loc) (dets : list loc)
  : list loc :=
  match dets with
  | [] => []
  | det :: rest =>
      if nms_keeps h current det
      then det :: nms_filter h current rest
      else nms_filter h current rest
  end.

(** [while sorted_detections: ...]; every round pops one element, so the
    length of the list bounds the number of rounds. *)
Fixpoint nms_loop (fuel : nat) (h : list Detection) (sorted_detections : list loc)
  : list loc :=
  match fuel, sorted_detections with
  | S fuel', current :: rest =>
      current :: nms_loop fuel' h (nms_filter h current rest)
  | _, _ => []
  end.

Definition apply_nms (h : list Detection) (detections : list loc) : list loc :=
  match detections with
  | [] => []
  | _ =>
      let sorted_detections :=
        sorted_desc (fun l => det_confidence (deref h l)) detections in
      nms_loop (length sorted_detections) h sorted_detections
  end.

(** [det] is discarded in the round that keeps [current]. *)
Definition nms_suppresses (h : list Detection) (current det : loc) : Prop :=
  det_class (deref h det) = det_class (deref h current)
  ∧ (nms_threshold self
     <= calculate_iou (det_bbox (deref h current)) (det_bbox (deref h det)))%Q.

(** *** merge_detections *)

(** [int((a + b) / 2)] *)
Definition int_mean (a b : Z) : Z := py_int_of_float (py_truediv (a + b) 2).

Definition merge_detections (det1 det2 : Detection) : Detection :=
  {| det_class := det_class det1;
     det_confidence :=
       (det_confidence det1 * yolo_weight self
        + det_confidence det2 * gpt_weight self)%Q;
     det_bbox :=
       {| bbox_x := int_mean (bbox_x (det_bbox det1)) (bbox_x (det_bbox det2));
          bbox_y := int_mean (bbox_y (det_bbox det1)) (bbox_y (det_bbox det2));
          bbox_width :=
            int_mean (bbox_width (det_bbox det1)) (bbox_width (det_bbox det2));
          bbox_height :=
            int_mean (bbox_height (det_bbox det1)) (bbox_height (det_bbox det2)) |};
     det_source := Some "ensemble"%string;
     det_description := None |}.

(** *** aggregate *)

(** The three variables of the search for the best GPT detection.
    [best_match = None] together with [best_match_idx = -1] is [None];
    both are always assigned together. *)
Record BestMatch := mkBest {
  best_iou : Q;
  best_match : option (nat * loc)
}.

(** [for j, gpt_det in enumerate(gpt_results)], started at index [j]. *)
Fixpoint find_best_match (h : list Detection) (yolo_det : Detection)
    (gpt_results : list loc) (j : nat) (best : BestMatch) : BestMatch :=
  match gpt_results with
  | [] => best
  | gpt_ref :: rest =>
      let gpt_det := deref h gpt_ref in
      let best' :=
        if String.eqb (det_class yolo_det) (det_class gpt_det) then
          let iou := calculate_iou (det_bbox yolo_det) (det_bbox gpt_det) in
          if Qlt_bool (best_iou best) iou
          then mkBest iou (Some (j, gpt_ref))
          else best
        else best in
      find_best_match h yolo_det rest (S j) best'
  end.

(** The GPT detection at index [j] has the class of [yolo_det], and
    [iou] is its overlap with it. *)
Definition candidate (h : list Detection) (yolo_det : Detection)
    (gpt_results : list loc) (j : nat) (gpt_ref : loc) (iou : Q) : Prop :=
  gpt_results !! j = Some gpt_ref
  ∧ det_class yolo_det = det_class (deref h gpt_ref)
  ∧ iou = calculate_iou (det_bbox yolo_det) (det_bbox (deref h gpt_ref)).

(** What the search has established after scanning [scanned]: nothing
    scanned beats [best_iou]; a recorded match is a scanned candidate of
    positive overlap, the first one to reach it. *)
Definition best_so_far (h : list Detection) (yolo_det : Detection)
    (scanned : list loc) (best : BestMatch) : Prop :=
  (∀ j g iou, candidate h yolo_det scanned j g iou → (iou <= best_iou best)%Q)
  ∧ match best_match best with
    | Some (j, g) =>
        candidate h yolo_det scanned j g (best_iou best)
        ∧ (0 < best_iou best)%Q
        ∧ (∀ j' g' iou', j' < j → candidate h yolo_det scanned j' g' iou' →
             (iou' < best_iou best)%Q)
    | None => best_iou best = 0%Q
    end.

Definition best_for (h : list Detection) (yolo_det : Detection)
    (gpt_results : list loc) : BestMatch :=
  find_best_match h yolo_det gpt_results 0 (mkBest 0%Q None).

(** What one round of the matching loop decides for a YOLO detection:
    the index and reference of the GPT detection it merges with, if any.
    [Raises TypeError] is [merge_detections(yolo_det, None)], reached when
    the threshold is below the initial [best_iou = 0.0] and nothing matched. *)
Definition match_of (h : list Detection) (yolo_det : Detection)
    (gpt_results : list loc) : outcome (option (nat * loc)) :=
  let best := best_for h yolo_det gpt_results in
  if Qlt_bool (iou_threshold self) (best_iou best) then
    match best_match best with
    | Some m => Returns (Some m)
    | None => Raises TypeError
    end
  else Returns None.

(** The merged dict a YOLO detection gives rise to, if it matches. *)
Definition merged_for (h : list Detection) (gpt_results : list loc) (yolo_ref : loc)
  : option Detection :=
  match match_of h (deref h yolo_ref) gpt_results with
  | Returns (Some (_, gpt_ref)) =>
      Some (merge_detections (deref h yolo_ref) (deref h gpt_ref))
  | _ => None
  end.

Record AggState := mkAggState {
  st_heap : list Detection;
  ensemble_detections : list loc;
  matched_yolo : gset nat;
  matched_gpt : gset nat
}.

(** [for i, yolo_det in enumerate(yolo_results)], started at index [i]. *)
Fixpoint match_loop (gpt_results : list loc) (yolo_results : list loc) (i : nat)
    (st : AggState) : outcome AggState :=
  match yolo_results with
  | [] => Returns st
  | yolo_ref :: rest =>
      let yolo_det := deref (st_heap st) yolo_ref in
      m ← match_of (st_heap st) yolo_det gpt_results;
      match m with
      | Some (best_match_idx, gpt_ref) =>
          let merged := merge_detections yolo_det (deref (st_heap st) gpt_ref) in
          let '(h', merged_ref) := alloc (st_heap st) merged in
          match_loop gpt_results rest (S i)
            {| st_heap := h';
               ensemble_detections := ensemble_detections st ++ [merged_ref];
               matched_yolo := {[ i ]} ∪ matched_yolo st;
               matched_gpt := {[ best_match_idx ]} ∪ matched_gpt st |}
      | None => match_loop gpt_results rest (S i) st
      end
  end.

(** The retention threshold written into both unmatched loops. *)
Definition retention_threshold : Q := 7 # 10.

(** [for i, det in enumerate(results): if i not in matched: if
    det['confidence'] > 0.7: ensemble_detections.append(det)] *)
Fixpoint add_unmatched (h : list Detection) (matched : gset nat)
    (results : list loc) (i : nat) (pool : list loc) : list loc :=
  match results with
  | [] => pool
  | det :: rest =>
      let pool' :=
        if bool_decide (i ∉ matched) then
          if Qlt_bool retention_threshold (det_confidence (deref h det))
          then pool ++ [det]
          else pool
        else pool in
      add_unmatched h matched rest (S i) pool'
  end.

(** Everything before the call of [apply_nms]: the store after tagging and
    merging, the matching state and the candidate pool. *)
Definition candidate_pool (h : list Detection) (yolo_results gpt_results : list loc)
  : outcome (AggState * list loc) :=
  let h1 := tag_all "yolo" yolo_results h in
  let h2 := tag_all "gpt" gpt_results h1 in
  st ← match_loop gpt_results yolo_results 0 (mkAggState h2 [] ∅ ∅);
  let pool1 :=
    add_unmatched (st_heap st) (matched_yolo st) yolo_results 0
      (ensemble_detections st) in
  let pool2 :=
    add_unmatched (st_heap st) (matched_gpt st) gpt_results 0 pool1 in
  Returns (st, pool2).

(** [aggregate] returns the final list of references; the store it leaves
    behind is returned with it.  Any exception of the body is re-raised as
    a plain [Exception].  The closing loop over [final_detections] only
    counts sources for the log: it reads [det['source']], which every input
    has been given by the tagging and every merged dict by
    [merge_detections], and changes nothing. *)
Definition aggregate (h : list Detection) (yolo_results gpt_results : list loc)
  : outcome (list Detection * list loc) :=
  match candidate_pool h yolo_results gpt_results with
  | Returns (st, pool) => Returns (st_heap st, apply_nms (st_heap st) pool)
  | Raises _ => Raises Exception
  end.

(** The claim that no GPT detection is consumed by two matches: two
    different YOLO detections that both match merge with different GPT
    detections. *)
Definition one_match_per_gpt (h : list Detection) (yolo_results gpt_results : list loc)
  : Prop :=
  ∀ i1 i2 y1 y2 j1 j2 g1 g2,
    i1 ≠ i2 →
    yolo_results !! i1 = Some y1 → yolo_results !! i2 = Some y2 →
    match_of h (deref h y1) gpt_results = Returns (Some (j1, g1)) →
    match_of h (deref h y2) gpt_results = Returns (Some (j2, g2)) →
    j1 ≠ j2.

End Aggregator.

(** ** Example data *)

Definition detection (c : string) (conf : Q) (x y w h : Z) : Detection :=
  mkDetection c conf (mkBBox x y w h) None None.

(** The end-to-end scenario of the test suite: references 0 and 1 are the
    YOLO results, 2 and 3 the GPT results. *)
Definition scenario_store : list Detection :=
  [ detection "damaged_rivet" (85 # 100) 100 150 50 60;
    detection "missing_rivet" (75 # 100) 200 250 40 50;
    detection "damaged_rivet" (80 # 100) 102 152 48 58;
    detection "crack" (70 # 100) 300 350 60 70 ].

(** The pool of the suppression test: two overlapping rivets and a crack. *)
Definition nms_store : list Detection :=
  [ detection "damaged_rivet" (85 # 100) 100 100 50 50;
    detection "damaged_rivet" (75 # 100) 105 105 50 50;
    detection "crack" (80 # 100) 200 200 40 40 ].

(** Two YOLO detections (0 and 1) on either half of one GPT detection (2). *)
Definition shared_store : list Detection :=
  [ detection "crack" (85 # 100) 0 0 20 11;
    detection "crack" (80 # 100) 0 9 20 11;
    detection "crack" (90 # 100) 0 0 20 20 ].

(** A YOLO detection (0) and a GPT detection (1) one pixel apart. *)
Definition shifted_store : list Detection :=
  [ detection "crack" (85 # 100) 0 0 10 10;
    detection "crack" (80 # 100) 1 0 10 10 ].

(** ** ImagePreprocessor *)

Record ImagePreprocessor := mkPreprocessor {
  target_size : Z;
  min_size : Z;
  max_size : Z
}.

Definition default_preprocessor : ImagePreprocessor := mkPreprocessor 640 640 4096.

(** [validate_dimensions(image)] reads [height, width = image.shape[:2]]
    only; both [raise ValueError(...)] are the spec's DimensionError. *)
Definition validate_dimensions (self : ImagePreprocessor) (height width : Z)
  : outcome bool :=
  if (height <? min_size self)%Z || (width <? min_size self)%Z then
    Raises ValueError
  else if (max_size self <? height)%Z || (max_size self <? width)%Z then
    Raises ValueError
  else Returns true.

(** Both sides of the image within the configured bounds, bounds included. *)
Definition dimensions_in_range (self : ImagePreprocessor) (height width : Z) : Prop :=
  (min_size self <= width <= max_size self)%Z
  ∧ (min_size self <= height <= max_size self)%Z.

(** [np.mean] and [ndarray.var] (population variance) of a flattened array. *)
Definition Qsum (xs : list Q) : Q := foldr Qplus 0%Q xs.

Definition np_mean (xs : list Q) : Q :=
  (Qsum xs / inject_Z (Z.of_nat (length xs)))%Q.

Definition np_var (xs : list Q) : Q :=
  let m := np_mean xs in
  np_mean (map (fun x => ((x - m) * (x - m))%Q) xs).

(** [min(laplacian_var / 1000.0, 1.0) * 50] *)
Definition sharpness_score (laplacian_var : Q) : Q :=
  (Qmin (laplacian_var / 1000) 1 * 50)%Q.

(** [(1.0 - abs(mean_brightness - 128) / 128.0) * 50] *)
Definition brightness_score (mean_brightness : Q) : Q :=
  ((1 - Qabs (mean_brightness - 128) / 128) * 50)%Q.

(** [calculate_quality_score(image)].  The two OpenCV calls are outside the
    repository, so their results are the arguments: [gray] is the flattened
    8-bit result of [cv2.cvtColor(image, cv2.COLOR_BGR2GRAY)] and
    [laplacian] the flattened result of [cv2.Laplacian(gray, cv2.CV_64F)]. *)
Definition calculate_quality_score (gray : list Z) (laplacian : list Q) : Q :=
  let laplacian_var := np_var laplacian in
  let mean_brightness := np_mean (map inject_Z gray) in
  (sharpness_score laplacian_var + brightness_score mean_brightness)%Q.

(** A decoded image has at least one pixel and 8-bit gray levels. *)
Definition valid_gray (gray : list Z) : Prop :=
  gray ≠ [] ∧ Forall (fun p => (0 <= p <= 255)%Z) gray.

(** ** GPTVisionClient.parse_response *)

Definition DEFECT_CLASSES : list string :=
  [ "damaged_rivet"; "missing_rivet"; "filiform_corrosion"; "missing_panel";
    "paint_detachment"; "scratch"; "composite_damage"; "random_damage";
    "burn_mark"; "scorch_mark"; "metal_fatigue"; "crack" ]%string.

(** [str.isspace] on the ASCII range: tab to carriage return, the four
    separators 28 to 31, and the space. *)
Definition py_isspace (c : ascii) : bool :=
  let n := nat_of_ascii c in
  ((9 <=? n) && (n <=? 13)) || ((28 <=? n) && (n <=? 32)).

Fixpoint lstrip (s : string) : string :=
  match s with
  | EmptyString => EmptyString
  | String c s' => if py_isspace c then lstrip s' else s
  end.

Definition strip (s : string) : string :=
  String.rev (lstrip (String.rev (lstrip s))).

Definition startswith (s p : string) : bool := String.prefix p s.

Definition endswith (s p : string) : bool :=
  String.prefix (String.rev p) (String.rev s).

(** [text[n:]] and [text[:-n]] *)
Definition drop_front (n : nat) (s : string) : string :=
  String.substring n (String.length s - n) s.

Definition drop_back (n : nat) (s : string) : string :=
  String.substring 0 (String.length s - n) s.

(** The removal of a markdown code fence around the JSON text. *)
Definition strip_fences (response_text : string) : string :=
  let text := strip response_text in
  let text :=
    if startswith text "```json" then drop_front 7 text
    else if startswith text "```" then drop_front 3 text
    else text in
  let text := if endswith text "```" then drop_back 3 text else text in
  strip text.

(** [k in d] and [d[k]] / [d.get(k)] on a decoded JSON object. *)
Fixpoint dict_get (fields : list (string * json)) (k : string) : option json :=
  match fields with
  | [] => None
  | (k', v) :: rest => if String.eqb k k' then Some v else dict_get rest k
  end.

Definition dict_has (fields : list (string * json)) (k : string) : bool :=
  match dict_get fields k with
  | Some _ => true
  | None => false
  end.

(** [class_name not in self.DEFECT_CLASSES]: list membership compares with
    [==], and only a string is equal to a string. *)
Definition known_class (class_name : json) : option string :=
  match class_name with
  | JStr s => if bool_decide (s ∈ DEFECT_CLASSES) then Some s else None
  | _ => None
  end.

(** An element the parsing policy drops: not an object, a required key
    missing, or a class outside the 12 categories. *)
Definition malformed_element (det : json) : Prop :=
  match det with
  | JObj fields =>
      dict_get fields "class" = None
      ∨ dict_get fields "confidence" = None
      ∨ dict_get fields "bbox" = None
      ∨ ∀ s, dict_get fields "class" = Some (JStr s) → s ∉ DEFECT_CLASSES
  | _ => True
  end.

Section ParseResponse.

(** The library calls the repository relies on: [json.loads] ([None] is
    [JSONDecodeError]) and the conversions [float(s)], [int(s)] of a string
    ([None] is [ValueError]). *)
Variable json_loads : string → option json.
Variable float_of_str : string → option Q.
Variable int_of_str : string → option Z.

(** [float(v)] *)
Definition py_float (v : json) : outcome Q :=
  match v with
  | JInt n => Returns (inject_Z n)
  | JFloat f => Returns f
  | JBool b => Returns (if b then 1%Q else 0%Q)
  | JStr s =>
      match float_of_str s with
      | Some f => Returns f
      | None => Raises ValueError
      end
  | _ => Raises TypeError
  end.

(** [int(v)] *)
Definition py_int (v : json) : outcome Z :=
  match v with
  | JInt n => Returns n
  | JFloat f => Returns (py_int_of_float f)
  | JBool b => Returns (if b then 1%Z else 0%Z)
  | JStr s =>
      match int_of_str s with
      | Some n => Returns n
      | None => Raises ValueError
      end
  | _ => Raises TypeError
  end.

(** [int(det['bbox'].get(k, 0))]: only a dict has [.get]. *)
Definition bbox_field (bbox : json) (k : string) : outcome Z :=
  match bbox with
  | JObj fields => py_int (default (JInt 0) (dict_get fields k))
  | _ => Raises AttributeError
  end.

(** The dict literal built for an element that passed both checks. *)
Definition format_detection (class_name : string) (fields : list (string * json))
  : outcome Detection :=
  confidence ← py_float (default JNull (dict_get fields "confidence"));
  let bbox := default JNull (dict_get fields "bbox") in
  x ← bbox_field bbox "x";
  y ← bbox_field bbox "y";
  width ← bbox_field bbox "width";
  height ← bbox_field bbox "height";
  Returns
    {| det_class := class_name;
       det_confidence := confidence;
       det_bbox := mkBBox x y width height;
       det_source := None;
       det_description := dict_get fields "description" |}.

(** The checks that end in [continue]: [Some class_name] when the element
    is a dict with the three keys and a known class. *)
Definition accepted (det : json) : option (string * list (string * json)) :=
  match det with
  | JObj fields =>
      if negb (dict_has fields "class") || negb (dict_has fields "confidence")
         || negb (dict_has fields "bbox")
      then None
      else
        match known_class (default JNull (dict_get fields "class")) with
        | Some class_name => Some (class_name, fields)
        | None => None
        end
  | _ => None
  end.

Definition format_accepted (a : string * list (string * json)) : outcome Detection :=
  format_detection (fst a) (snd a).

(** [for det in detections_raw: ...] with the accumulator [detections]. *)
Fixpoint parse_loop (detections_raw : list json) (detections : list Detection)
  : outcome (list Detection) :=
  match detections_raw with
  | [] => Returns detections
  | det :: rest =>
      match accepted det with
      | None => parse_loop rest detections
      | Some (class_name, fields) =>
          detection ← format_detection class_name fields;
          parse_loop rest (detections ++ [detection])
      end
  end.

(** What [for det in v] iterates over: the items of a list, the keys of a
    dict, the characters of a string; anything else is not iterable. *)
Definition py_iter (v : json) : outcome (list json) :=
  match v with
  | JArr items => Returns items
  | JObj fields => Returns (map (fun kv => JStr (fst kv)) fields)
  | JStr s => Returns (map (fun c => JStr (String c EmptyString)) (list_ascii_of_string s))
  | _ => Raises TypeError
  end.

(** The body of the [try] block. *)
Definition parse_response_body (response_text : string) : outcome (list Detection) :=
  match json_loads (strip_fences response_text) with
  | None => Raises JSONDecodeError
  | Some detections_raw =>
      items ← py_iter detections_raw;
      parse_loop items []
  end.

(** Both handlers ([except json.JSONDecodeError], [except Exception])
    return the empty list. *)
Definition parse_response (response_text : string) : outcome (list Detection) :=
  match parse_response_body response_text with
  | Returns detections => Returns detections
  | Raises _ => Returns []
  end.

End ParseResponse.

(** A decoded response with an element without class, a well-formed element
    and an element whose confidence is [null]; and the same response without
    the last element. *)
Definition no_class_element : json :=
  JObj [("confidence", JFloat (9 # 10)); ("bbox", JObj [])]%string.

Definition crack_element : json :=
  JObj [("class", JStr "crack"); ("confidence", JFloat (75 # 100));
        ("bbox", JObj [("x", JInt 200); ("y", JInt 250);
                       ("width", JInt 40); ("height", JInt 50)])]%string.

Definition null_confidence_element : json :=
  JObj [("class", JStr "scratch"); ("confidence", JNull); ("bbox", JObj [])]%string.

Definition mixed_batch : list json :=
  [no_class_element; crack_element; null_confidence_element].

Definition clean_batch : list json := [no_class_element; crack_element].

(** ** EnsembleAggregator.weighted_voting *)



(** A box as both detectors are meant to produce it. *)
Definition bbox_wf (b : BBox) : Prop :=
  (0 <= bbox_width b)%Z ∧ (0 <= bbox_height b)%Z.

(** [det] would survive a round that keeps [current]. *)
Definition nms_compatible (self : EnsembleAggregator) (h : list Detection)
    (current det : loc) : Prop :=
  nms_keeps self h current det = true.

(** The unmatched loops as a comprehension, for a list none of whose
    indices is matched. *)
Definition confident (h : list Detection) (results : list loc) : list loc :=
  List.filter
    (fun det => Qlt_bool retention_threshold (det_confidence (deref h det)))
    results.

(** ** The response format of create_detection_prompt *)

(** The JSON object the prompt asks for, for one detection:
    [{"class": ..., "confidence": ..., "bbox": {"x": ..., "y": ...,
    "width": ..., "height": ...}, "description": ...}], the description
    being left out when the detection has none. *)
Definition prompt_format (d : Detection) : json :=
  JObj ([ ("class", JStr (det_class d));
          ("confidence", JFloat (det_confidence d));
          ("bbox", JObj [ ("x", JInt (bbox_x (det_bbox d)));
                          ("y", JInt (bbox_y (det_bbox d)));
                          ("width", JInt (bbox_width (det_bbox d)));
                          ("height", JInt (bbox_height (det_bbox d))) ]) ]%string
        ++ match det_description d with
           | Some v => [("description"%string, v)]
           | None => []
           end).

(** A detection as [parse_response] builds them: a known class and no
    source yet. *)
Definition parsed_detection (d : Detection) : Prop :=
  det_class d ∈ DEFECT_CLASSES ∧ det_source d = None.

(** The line feed between a code fence and the JSON text. *)
Definition newline : string := String "010"%char EmptyString.

(** ** GPTVisionClient.analyze_image and analyze_with_timeout *)

Record GPTVisionClient := mkClient {
  client_configured : bool;
  max_retries : Z
}.

(** The constructor's default [max_retries=3], with an API key. *)
Definition default_client : GPTVisionClient := mkClient true 3.

(** The waits of [k] retries: [2 ** 0], [2 ** 1], ... *)
Definition backoff (k : nat) : list Z := (fun i => 2 ^ Z.of_nat i)%Z <$> seq 0 k.

Section AnalyzeImage.

Variable json_loads : string → option json.
Variable float_of_str : string → option Q.
Variable int_of_str : string → option Z.

(** What the API does on its [k]-th call, counted from 0: encoding the
    image, sending the prompt and reading [message.content] either give the
    response text or raise. *)
Variable api_call : nat → outcome string.

Variable self : GPTVisionClient.

(** The [try] block of [analyze_image]. *)
Definition attempt (retry_count : nat) : outcome (list Detection) :=
  if client_configured self then
    response_text ← api_call retry_count;
    parse_response json_loads float_of_str int_of_str response_text
  else Raises Exception.

(** [analyze_image(image, retry_count)]: its outcome and the arguments of
    its calls of [time.sleep], in order.  Every recursive call raises
    [retry_count], which [max_retries] bounds, so [fuel] bounds the depth. *)
Fixpoint analyze_image (fuel : nat) (retry_count : nat)
  : outcome (list Detection) * list Z :=
  match attempt retry_count with
  | Returns detections => (Returns detections, [])
  | Raises _ =>
      if (Z.of_nat retry_count <? max_retries self)%Z then
        match fuel with
        | S fuel' =>
            let '(result, sleeps) := analyze_image fuel' (S retry_count) in
            (result, (2 ^ Z.of_nat retry_count)%Z :: sleeps)
        | O => (Raises Exception, [])
        end
      else (Raises Exception, [])
  end.

(** [analyze_image(image)], from [retry_count=0]. *)
Definition analyze_image_call : outcome (list Detection) * list Z :=
  analyze_image (Z.to_nat (max_retries self)) 0.

(** [analyze_with_timeout(image, timeout)]; the body does not use
    [timeout]. *)
Definition analyze_with_timeout : list Detection * list Z :=
  match analyze_image_call with
  | (Returns detections, sleeps) => (detections, sleeps)
  | (Raises _, sleeps) => ([], sleeps)
  end.

End AnalyzeImage.

(** ** ImagePreprocessor.resize_for_yolo *)



(** ** YOLODetector.postprocess *)

(** The class table of the YOLO detector. *)
Definition CLASS_NAMES : list string :=
  [ "damaged_rivet"; "missing_rivet"; "filiform_corrosion"; "missing_panel";
    "paint_detachment"; "scratch"; "composite_damage"; "random_damage";
    "burn_mark"; "scorch_mark"; "metal_fatigue"; "crack" ]%string.

(** The name of a class index: the model's own table [result.names] when the
    result has one that covers the index, else [CLASS_NAMES], else
    [f"class_{class_idx}"]. *)
Definition class_name_of (names : option (list string)) (class_idx : nat) : string :=
  let fallback :=
    if class_idx <? length CLASS_NAMES
    then CLASS_NAMES !!! class_idx
    else ("class_" +:+ pretty class_idx)%string in
  match names with
  | Some table => if class_idx <? length table then table !!! class_idx else fallback
  | None => fallback
  end.

(** The dict [postprocess] builds for one box, from its corners
    [x1, y1, x2, y2], its confidence and its class index. *)
Definition postprocess_box (names : option (list string)) (x1 y1 x2 y2 : Q)
    (confidence : Q) (class_idx : nat) : Detection :=
  {| det_class := class_name_of names class_idx;
     det_confidence := confidence;
     det_bbox :=
       {| bbox_x := py_int_of_float x1;
          bbox_y := py_int_of_float y1;
          bbox_width := py_int_of_float (x2 - x1);
          bbox_height := py_int_of_float (y2 - y1) |};
     det_source := None;
     det_description := None |}.

(** ** The request handler detect_defects (app.py) *)

(** The aggregator [get_services] builds: the two weights come from the
    configuration, the two thresholds are the constructor's defaults. *)
Definition service_aggregator (yolo_weight gpt_weight : Q) : EnsembleAggregator :=
  mkAggregator yolo_weight gpt_weight (5 # 10) (4 # 10).

(** The answer of the handler: the defects with the three counts of the
    metadata, or the status and code of an error.  Processing time, quality
    score and dimensions are left out. *)
Inductive response :=
| Success (defects : list Detection)
    (yoloDetections gptDetections finalDetections : nat)
| Failure (status : Z) (code : string).

(** [run_yolo] and [run_gpt]: a detector that raises counts as one that
    found nothing. *)
Definition run_detector (result : outcome (list Detection)) : list Detection :=
  match result with
  | Returns detections => detections
  | Raises _ => []
  end.

Section DetectDefects.

(** The collaborators of the handler: [preprocess] and the two detector
    pipelines, [yolo.detect_and_process] and [gpt.analyze_with_timeout],
    each run on the preprocessing result. *)
Variable Preprocessed : Type.
Variable preprocess : string → outcome Preprocessed.
Variable yolo_detect : Preprocessed → outcome (list Detection).
Variable gpt_detect : Preprocessed → outcome (list Detection).
Variable ensemble : EnsembleAggregator.

(** Steps 2 and 3.  The two tasks are submitted to a pool of two workers
    and both results are awaited; they share nothing, so the pair of
    results is that of running them one after the other.  The dicts the
    detectors return are new objects: they make up the store, YOLO's first. *)
Definition run_pipeline (preprocess_result : Preprocessed) : response :=
  let yolo_results := run_detector (yolo_detect preprocess_result) in
  let gpt_results := run_detector (gpt_detect preprocess_result) in
  let h := yolo_results ++ gpt_results in
  let yolo_refs := seq 0 (length yolo_results) in
  let gpt_refs := seq (length yolo_results) (length gpt_results) in
  match aggregate ensemble h yolo_refs gpt_refs with
  | Returns (h', final_detections) =>
      Success (deref h' <$> final_detections)
        (length yolo_results) (length gpt_results) (length final_detections)
  | Raises _ => Failure 500 "ML_ERROR"
  end.

(** [detect_defects] for a request whose body, if any, is a JSON object
    and whose [imageUrl], if any, is a string: [request] is [None] when
    [request.json] is empty, and holds [request.json.get('imageUrl')]
    otherwise. *)
Definition detect_defects (request : option (option string)) : response :=
  match request with
  | None => Failure 400 "INVALID_REQUEST"
  | Some None | Some (Some EmptyString) => Failure 400 "MISSING_PARAMETER"
  | Some (Some image_url) =>
      match preprocess image_url with
      | Returns preprocess_result => run_pipeline preprocess_result
      | Raises ValueError => Failure 400 "VALIDATION_ERROR"
      | Raises _ => Failure 500 "ML_ERROR"
      end
  end.

End DetectDefects.

(** ** ImagePreprocessor.preprocess *)

Record PreprocessResult (Image : Type) := mkPreprocessResult {
  original : Image;
  processed : Image;
  quality_score : Q;
  dimensions : Z * Z
}.
Arguments mkPreprocessResult {Image} original processed quality_score dimensions.
Arguments original {Image} p.
Arguments processed {Image} p.
Arguments quality_score {Image} p.
Arguments dimensions {Image} p.

Section Preprocess.

(** Images and the library calls on them: [image.shape[:2]], the download
    and decoding of [load_image_from_url], the two OpenCV results that
    [calculate_quality_score] works on, and the three image transformations
    ([normalize_brightness_contrast], [apply_adaptive_filtering] and the
    resizing and padding of [resize_for_yolo]), each of which may raise. *)
Variable Image : Type.
Variable shape : Image → Z * Z.
Variable load_image_from_url : string → outcome Image.
Variable gray_of : Image → list Z.
Variable laplacian_of : Image → list Q.
Variable normalize_brightness_contrast : Image → outcome Image.
Variable apply_adaptive_filtering : Image → outcome Image.
Variable resize_image : Image → outcome Image.

Variable self : ImagePreprocessor.

(** The [try] block of [preprocess]. *)
Definition preprocess_body (image_url : string) : outcome (PreprocessResult Image) :=
  original_image ← load_image_from_url image_url;
  let '(height, width) := shape original_image in
  let original_dimensions := (width, height) in
  _ ← validate_dimensions self height width;
  let quality_score :=
    calculate_quality_score (gray_of original_image) (laplacian_of original_image) in
  processed ← normalize_brightness_contrast original_image;
  processed ← apply_adaptive_filtering processed;
  processed ← resize_image processed;
  Returns (mkPreprocessResult original_image processed quality_score
             original_dimensions).

(** [except Exception as e: raise ValueError(error_msg)] *)
Definition preprocess (image_url : string) : outcome (PreprocessResult Image) :=
  match preprocess_body image_url with
  | Returns result => Returns result
  | Raises _ => Raises ValueError
  end.

End Preprocess.
(** * Properties

    ** Arithmetic helpers *)

Lemma Qlt_bool_iff (a b : Q) : Qlt_bool a b = true ↔ (a < b)%Q.
Proof.
  unfold Qlt_bool. rewrite negb_true_iff. split.
  - intros H. apply Qnot_le_lt. intros Hle. apply Qle_bool_iff in Hle. congruence.
  - intros H. destruct (Qle_bool b a) eqn:E; [|done].
    apply Qle_bool_iff in E. apply Qlt_not_le in H. contradiction.
Qed.

Lemma Qlt_bool_false_iff (a b : Q) : Qlt_bool a b = false ↔ (b <= a)%Q.
Proof.
  unfold Qlt_bool. rewrite negb_false_iff. apply Qle_bool_iff.
Qed.

Lemma py_truediv_self (a : Z) : (0 < a)%Z → (py_truediv a a == 1)%Q.
Proof.
  intros Ha. unfold py_truediv. apply Qmult_inv_r.
  intros H. unfold Qeq in H. simpl in H. lia.
Qed.

Lemma py_truediv_zero (b : Z) : (py_truediv 0 b == 0)%Q.
Proof. unfold py_truediv. apply Qmult_0_l. Qed.

(** C3, counterexample: the box at (10, 20) of width and height 0 is
    identical to itself and its IoU with itself is 0, not 1. *)
Lemma iou_identical_degenerate_cex :
  ¬ (calculate_iou (mkBBox 10 20 0 0) (mkBBox 10 20 0 0) == 1)%Q.
Proof. vm_compute. discriminate. Qed.

(** C3 (amended).  [calculate_iou] is 1 for two identical boxes of positive
    width and height, and exactly 0 for two boxes that do not overlap; when
    the union area is not positive, in particular for two zero-area boxes
    (identical or not), the result is 0 and no division takes place. *)
Theorem calculate_iou_identical_disjoint (b1 b2 : BBox) :
  (b1 = b2 → (0 < bbox_width b1)%Z → (0 < bbox_height b1)%Z →
   (calculate_iou b1 b2 == 1)%Q)
  ∧ (non_overlapping b1 b2 → (calculate_iou b1 b2 == 0)%Q)
  ∧ ((union_area b1 b2 <= 0)%Z → calculate_iou b1 b2 = 0%Q)
  ∧ (bbox_area b1 = 0%Z → bbox_area b2 = 0%Z → calculate_iou b1 b2 = 0%Q).
Proof.
  repeat split.
  - intros <- Hw Hh. destruct b1 as [x y w h]; simpl in *.
    unfold calculate_iou, union_area, intersection_area, bbox_area,
      x_right, x_left, y_bottom, y_top; simpl.
    rewrite !Z.max_id, !Z.min_id.
    replace (x + w - x)%Z with w by lia. replace (y + h - y)%Z with h by lia.
    replace (w * h + w * h - w * h)%Z with (w * h)%Z by lia.
    assert (Hpos : (0 < w * h)%Z) by nia.
    destruct (Z.ltb_spec (x + w) x); [lia|].
    destruct (Z.ltb_spec (y + h) y); [lia|]. simpl.
    destruct (Z.ltb_spec 0 (w * h)); [|lia].
    by apply py_truediv_self.
  - intros Hno. unfold calculate_iou.
    destruct (Z.ltb_spec (x_right b1 b2) (x_left b1 b2)); [reflexivity|].
    destruct (Z.ltb_spec (y_bottom b1 b2) (y_top b1 b2)); [reflexivity|]. simpl.
    assert (Hi : intersection_area b1 b2 = 0%Z).
    { unfold intersection_area. destruct Hno; nia. }
    rewrite Hi. destruct (0 <? union_area b1 b2)%Z; [apply py_truediv_zero|reflexivity].
  - intros Hu. unfold calculate_iou.
    destruct (_ || _); [reflexivity|].
    destruct (Z.ltb_spec 0 (union_area b1 b2)); [lia|reflexivity].
  - intros H1 H2. unfold calculate_iou.
    destruct (Z.ltb_spec (x_right b1 b2) (x_left b1 b2)); [reflexivity|].
    destruct (Z.ltb_spec (y_bottom b1 b2) (y_top b1 b2)); [reflexivity|]. simpl.
    assert (Hi : intersection_area b1 b2 = 0%Z).
    { unfold intersection_area, x_right, x_left, y_bottom, y_top, bbox_area in *.
      apply Z.mul_eq_0 in H1. destruct H1 as [H1|H1]; nia. }
    unfold union_area. rewrite H1, H2, Hi. reflexivity.
Qed.

Lemma calculate_iou_identical_disjoint_witness :
  (calculate_iou (mkBBox 100 150 50 60) (mkBBox 100 150 50 60) == 1)%Q
  ∧ (calculate_iou (mkBBox 0 0 10 10) (mkBBox 10 0 10 10) == 0)%Q
  ∧ calculate_iou (mkBBox 5 5 0 0) (mkBBox 5 5 0 0) = 0%Q.
Proof.
  split; [|split].
  - apply (calculate_iou_identical_disjoint (mkBBox 100 150 50 60) (mkBBox 100 150 50 60));
      [reflexivity | simpl; lia | simpl; lia].
  - apply (calculate_iou_identical_disjoint (mkBBox 0 0 10 10) (mkBBox 10 0 10 10)).
    left. vm_compute. discriminate.
  - destruct (calculate_iou_identical_disjoint (mkBBox 5 5 0 0) (mkBBox 5 5 0 0))
      as (_ & _ & H & _).
    apply H. vm_compute. discriminate.
Defined.

(** ** ImagePreprocessor.validate_dimensions *)

(** C8.  [validate_dimensions] returns [True] exactly when width and height
    both lie in [[min_size, max_size]], bounds included, and raises
    [ValueError] otherwise. *)
Theorem validate_dimensions_inclusive (self : ImagePreprocessor) (height width : Z) :
  (validate_dimensions self height width = Returns true
   ↔ dimensions_in_range self height width)
  ∧ (¬ dimensions_in_range self height width
     → validate_dimensions self height width = Raises ValueError).
Proof.
  unfold validate_dimensions, dimensions_in_range.
  destruct (Z.ltb_spec height (min_size self)), (Z.ltb_spec width (min_size self)),
    (Z.ltb_spec (max_size self) height), (Z.ltb_spec (max_size self) width);
    simpl; (split; [split; [try discriminate; intros; lia | intros; (reflexivity || lia)]
                   | intros; (reflexivity || lia)]).
Qed.

Lemma validate_dimensions_inclusive_witness :
  validate_dimensions default_preprocessor 640 4096 = Returns true
  ∧ validate_dimensions default_preprocessor 639 4096 = Raises ValueError.
Proof.
  split.
  - apply (validate_dimensions_inclusive default_preprocessor 640 4096).
    unfold dimensions_in_range. simpl. lia.
  - apply (validate_dimensions_inclusive default_preprocessor 639 4096).
    unfold dimensions_in_range. simpl. lia.
Defined.

(** ** ImagePreprocessor.calculate_quality_score *)

Lemma Qsum_bounds (lo hi : Q) (xs : list Q) :
  Forall (fun x => lo <= x <= hi)%Q xs →
  (lo * inject_Z (Z.of_nat (length xs)) <= Qsum xs
   ∧ Qsum xs <= hi * inject_Z (Z.of_nat (length xs)))%Q.
Proof.
  induction 1 as [|x xs [Hlo Hhi] _ [IHlo IHhi]].
  - change (inject_Z (Z.of_nat (length (@nil Q)))) with 0%Q.
    change (Qsum []) with 0%Q. split; lra.
  - cbn [length Qsum foldr]. fold (Qsum xs).
    rewrite Nat2Z.inj_succ. unfold Z.succ. rewrite inject_Z_plus.
    change (inject_Z 1) with 1%Q.
    generalize dependent (inject_Z (Z.of_nat (length xs))). intros n ? ?.
    split; lra.
Qed.

Lemma np_mean_bounds (lo hi : Q) (xs : list Q) :
  xs ≠ [] → Forall (fun x => lo <= x <= hi)%Q xs →
  (lo <= np_mean xs <= hi)%Q.
Proof.
  intros Hne Hall. destruct (Qsum_bounds lo hi xs Hall) as [Hlo Hhi].
  assert (Hn : (0 < inject_Z (Z.of_nat (length xs)))%Q).
  { destruct xs; [done|]. unfold Qlt. simpl. lia. }
  unfold np_mean. split.
  - apply Qle_shift_div_l; assumption.
  - apply Qle_shift_div_r; assumption.
Qed.

Lemma np_mean_nonneg (xs : list Q) :
  Forall (fun x => 0 <= x)%Q xs → (0 <= np_mean xs)%Q.
Proof.
  intros Hall. unfold np_mean.
  assert (Hs : (0 <= Qsum xs)%Q).
  { induction Hall; simpl; [lra|]. fold (Qsum l). lra. }
  destruct xs as [|x xs].
  - simpl. unfold Qdiv. lra.
  - apply Qle_shift_div_l; [unfold Qlt; simpl; lia|]. lra.
Qed.

Lemma Qsquare_nonneg (d : Q) : (0 <= d * d)%Q.
Proof.
  destruct (Qlt_le_dec d 0) as [Hd|Hd].
  - assert (He : (d * d == (- d) * (- d))%Q) by ring.
    rewrite He. apply Qmult_le_0_compat; lra.
  - by apply Qmult_le_0_compat.
Qed.

Lemma np_var_nonneg (xs : list Q) : (0 <= np_var xs)%Q.
Proof.
  unfold np_var. apply np_mean_nonneg.
  apply Forall_forall. intros y Hy.
  apply list_elem_of_fmap in Hy as (x & -> & _). apply Qsquare_nonneg.
Qed.

Lemma sharpness_score_range (v : Q) : (0 <= v)%Q → (0 <= sharpness_score v <= 50)%Q.
Proof.
  intros Hv. unfold sharpness_score.
  destruct (Q.min_spec (v / 1000) 1) as [[Hlt ->]|[Hle ->]]; [|lra].
  assert (H0 : (0 <= v / 1000)%Q) by (apply Qle_shift_div_l; lra).
  lra.
Qed.

Lemma brightness_score_range (m : Q) :
  (0 <= m <= 255)%Q → (0 <= brightness_score m <= 50)%Q.
Proof.
  intros [H0 H255]. unfold brightness_score.
  assert (Ha : (0 <= Qabs (m - 128) <= 128)%Q).
  { split; [apply Qabs_nonneg|]. apply Qabs_Qle_condition. lra. }
  assert (Hd : (0 <= Qabs (m - 128) / 128 <= 1)%Q).
  { split; [apply Qle_shift_div_l|apply Qle_shift_div_r]; lra. }
  generalize dependent (Qabs (m - 128) / 128)%Q. intros d Hd. lra.
Qed.

(** C9.  For a decoded image the sharpness term lies in [[0, 50]], the
    brightness term [50 * (1 - |mean_gray - 128| / 128)] lies in [[0, 50]],
    the score is their sum, and it lies in [[0, 100]]. *)
Theorem quality_score_in_range (gray : list Z) (laplacian : list Q) :
  valid_gray gray →
  let sharpness := sharpness_score (np_var laplacian) in
  let brightness := brightness_score (np_mean (map inject_Z gray)) in
  (0 <= sharpness <= 50)%Q
  ∧ (0 <= brightness <= 50)%Q
  ∧ calculate_quality_score gray laplacian = (sharpness + brightness)%Q
  ∧ (0 <= calculate_quality_score gray laplacian <= 100)%Q.
Proof.
  intros [Hne Hpix] sharpness brightness.
  assert (Hs : (0 <= sharpness <= 50)%Q)
    by apply sharpness_score_range, np_var_nonneg.
  assert (Hb : (0 <= brightness <= 50)%Q).
  { apply brightness_score_range, np_mean_bounds.
    - destruct gray; [done|discriminate].
    - apply Forall_fmap. eapply Forall_impl; [exact Hpix|].
      intros p [Hp0 Hp255]. simpl. split.
      + change 0%Q with (inject_Z 0). by rewrite <- Zle_Qle.
      + change 255%Q with (inject_Z 255). by rewrite <- Zle_Qle. }
  repeat split; try apply Hs; try apply Hb;
    unfold calculate_quality_score; fold sharpness brightness; lra.
Qed.

Lemma quality_score_in_range_witness :
  (0 <= calculate_quality_score [128; 128; 128; 128]%Z [0; 0; 0; 0]%Q <= 100)%Q.
Proof.
  apply (quality_score_in_range [128; 128; 128; 128]%Z [0; 0; 0; 0]%Q).
  split; [discriminate|]. repeat constructor; lia.
Defined.

(** ** apply_nms *)

Section SortedDesc.

Variable key : loc → Q.

Lemma insert_desc_perm (x : loc) (l : list loc) : insert_desc key x l ≡ₚ x :: l.
Proof.
  induction l as [|y l IH]; simpl; [done|].
  destruct (Qlt_bool (key x) (key y)); [|done].
  rewrite IH. apply Permutation_swap.
Qed.

Lemma sorted_desc_perm (l : list loc) : sorted_desc key l ≡ₚ l.
Proof.
  induction l as [|x l IH]; simpl; [done|].
  rewrite insert_desc_perm. by rewrite IH.
Qed.



End SortedDesc.


Section Nms.

Variable self : EnsembleAggregator.
Variable h : list Detection.

Lemma nms_keeps_false_iff (current det : loc) :
  nms_keeps self h current det = false ↔ nms_suppresses self h current det.
Proof.
  unfold nms_keeps, nms_suppresses.
  destruct (String.eqb_spec (det_class (deref h det)) (det_class (deref h current)))
    as [Heq|Hne].
  - rewrite Qlt_bool_false_iff. tauto.
  - split; [discriminate|]. intros [Heq _]. contradiction.
Qed.

Lemma nms_filter_elem (current : loc) (dets : list loc) (det : loc) :
  det ∈ nms_filter self h current dets
  ↔ det ∈ dets ∧ nms_keeps self h current det = true.
Proof.
  induction dets as [|d dets IH]; simpl.
  - rewrite elem_of_nil. tauto.
  - destruct (nms_keeps self h current d) eqn:E; rewrite ?elem_of_cons, IH.
    + split; [intros [->|[? ?]]; tauto|tauto].
    + split; [tauto|]. intros [[->|Hin] Hk]; [congruence|tauto].
Qed.

Lemma nms_filter_sublist (current : loc) (dets : list loc) :
  nms_filter self h current dets `sublist_of` dets.
Proof.
  induction dets as [|d dets IH]; simpl; [done|].
  destruct (nms_keeps self h current d); by constructor.
Qed.

Lemma nms_loop_sublist (fuel : nat) (dets : list loc) :
  nms_loop self fuel h dets `sublist_of` dets.
Proof.
  revert dets. induction fuel as [|fuel IH]; intros [|current rest]; simpl;
    try apply sublist_nil_l.
  apply sublist_skip. etransitivity; [apply IH|apply nms_filter_sublist].
Qed.

(** The loop never stops for lack of fuel: any bound above the length of the
    list gives the same result. *)
Lemma nms_loop_fuel (fuel1 fuel2 : nat) (dets : list loc) :
  length dets ≤ fuel1 → length dets ≤ fuel2 →
  nms_loop self fuel1 h dets = nms_loop self fuel2 h dets.
Proof.
  revert fuel2 dets. induction fuel1 as [|fuel1 IH]; intros fuel2 [|current rest];
    simpl; intros H1 H2; try lia; destruct fuel2 as [|fuel2]; simpl in *;
    try done; try lia.
  f_equal. pose proof (sublist_length _ _ (nms_filter_sublist current rest)).
  apply IH; lia.
Qed.

Lemma nms_loop_round (current : loc) (rest : list loc) :
  nms_loop self (length (current :: rest)) h (current :: rest)
  = current :: nms_loop self (length (nms_filter self h current rest)) h
                 (nms_filter self h current rest).
Proof.
  simpl. f_equal. pose proof (sublist_length _ _ (nms_filter_sublist current rest)).
  by apply nms_loop_fuel.
Qed.

Lemma nms_loop_suppressed (fuel : nat) (dets : list loc) (det : loc) :
  length dets ≤ fuel → det ∈ dets →
  det ∈ nms_loop self fuel h dets
  ∨ ∃ kept, kept ∈ nms_loop self fuel h dets ∧ nms_suppresses self h kept det.
Proof.
  revert dets. induction fuel as [|fuel IH]; intros [|current rest]; simpl;
    intros Hlen Hin; try lia; try by apply elem_of_nil in Hin.
  apply elem_of_cons in Hin as [->|Hin]; [left; apply list_elem_of_here|].
  destruct (nms_keeps self h current det) eqn:E.
  - pose proof (sublist_length _ _ (nms_filter_sublist current rest)).
    destruct (IH (nms_filter self h current rest)) as [Hk|(kept & Hk & Hs)];
      [lia|by apply nms_filter_elem|left|right].
    + by apply list_elem_of_further.
    + exists kept. split; [by apply list_elem_of_further|done].
  - right. exists current. split; [apply list_elem_of_here|].
    by apply nms_keeps_false_iff.
Qed.

Lemma apply_nms_unfold (detections : list loc) :
  apply_nms self h detections
  = nms_loop self (length detections) h
      (sorted_desc (fun l => det_confidence (deref h l)) detections).
Proof.
  unfold apply_nms. destruct detections as [|d detections]; [done|].
  apply nms_loop_fuel; by rewrite sorted_desc_perm.
Qed.

Lemma apply_nms_subseteq (detections : list loc) (det : loc) :
  det ∈ apply_nms self h detections → det ∈ detections.
Proof.
  rewrite apply_nms_unfold. intros Hin.
  rewrite <- (sorted_desc_perm (fun l => det_confidence (deref h l))).
  eapply elem_of_sublist; [exact Hin|apply nms_loop_sublist].
Qed.


(** C6.  In a round of [apply_nms] a remaining detection is discarded if and
    only if it has the class of the kept detection and its IoU with it is at
    least [nms_threshold]; a detection of another class stays; and whatever
    [apply_nms] removes from its input was suppressed by a kept detection of
    the same class. *)
Theorem nms_same_class_suppression :
  (∀ current rest det, det ∈ rest →
     (det ∉ nms_filter self h current rest ↔ nms_suppresses self h current det))
  ∧ (∀ current rest det, det ∈ rest →
       det_class (deref h det) ≠ det_class (deref h current) →
       det ∈ nms_filter self h current rest)
  ∧ (∀ detections det, det ∈ detections →
       det ∉ apply_nms self h detections →
       ∃ kept, kept ∈ apply_nms self h detections
               ∧ nms_suppresses self h kept det).
Proof.
  split; [|split].
  - intros current rest det Hin. rewrite nms_filter_elem, <- nms_keeps_false_iff.
    destruct (nms_keeps self h current det); split.
    + intros Hn. exfalso. apply Hn. tauto.
    + discriminate.
    + reflexivity.
    + intros _ [_ Hk]. discriminate.
  - intros current rest det Hin Hne. apply nms_filter_elem. split; [done|].
    unfold nms_keeps. by destruct (String.eqb_spec (det_class (deref h det))
                                     (det_class (deref h current))).
  - intros detections det Hin Hout. rewrite apply_nms_unfold in *.
    destruct (nms_loop_suppressed (length detections)
                (sorted_desc (fun l => det_confidence (deref h l)) detections) det)
      as [Hk|Hs]; [by rewrite sorted_desc_perm|by rewrite sorted_desc_perm| |done].
    contradiction.
Qed.

End Nms.

Lemma nms_same_class_suppression_witness :
  apply_nms default_aggregator nms_store [0; 1; 2] = [0; 2]
  ∧ ∃ kept, kept ∈ apply_nms default_aggregator nms_store [0; 1; 2]
            ∧ nms_suppresses default_aggregator nms_store kept 1.
Proof.
  assert (Hout : apply_nms default_aggregator nms_store [0; 1; 2] = [0; 2])
    by (vm_compute; reflexivity).
  split; [exact Hout|].
  destruct (nms_same_class_suppression default_aggregator nms_store)
    as (_ & _ & Hglobal).
  apply Hglobal.
  - apply list_elem_of_further, list_elem_of_here.
  - rewrite Hout. intros Hin. apply list_elem_of_In in Hin. simpl in Hin.
    destruct Hin as [Hin|[Hin|[]]]; discriminate.
Defined.

(** ** The store *)

Lemma payload_set_source (s : string) (d : Detection) :
  payload (set_source s d) = payload d.
Proof. reflexivity. Qed.

Lemma payload_fields (d1 d2 : Detection) :
  payload d1 = payload d2 →
  det_class d1 = det_class d2 ∧ det_confidence d1 = det_confidence d2
  ∧ det_bbox d1 = det_bbox d2 ∧ det_description d1 = det_description d2.
Proof. unfold payload. intros [=]. auto. Qed.

Lemma deref_alter (f : Detection → Detection) (h : list Detection) (i l : loc) :
  deref (alter f i h) l
  = if decide (i = l ∧ l < length h) then f (deref h l) else deref h l.
Proof.
  unfold deref. destruct (decide (i = l ∧ l < length h)) as [[-> Hlt]|Hn].
  - by apply list_lookup_total_alter_eq.
  - destruct (decide (i = l)) as [->|Hne].
    + assert (Hge : length h ≤ l) by lia.
      rewrite !list_lookup_total_alt, list_lookup_alter_eq.
      by rewrite (lookup_ge_None_2 h l Hge).
    + by apply list_lookup_total_alter_ne.
Qed.

Lemma tag_all_length (s : string) (refs : list loc) (h : list Detection) :
  length (tag_all s refs h) = length h.
Proof.
  revert h. induction refs as [|r refs IH]; intros h; simpl; [done|].
  unfold tag_all in *. simpl. by rewrite IH, length_alter.
Qed.

Lemma tag_all_payload (s : string) (refs : list loc) (h : list Detection) (l : loc) :
  payload (deref (tag_all s refs h) l) = payload (deref h l).
Proof.
  revert h. induction refs as [|r refs IH]; intros h; [done|].
  unfold tag_all in *. simpl. rewrite IH, deref_alter.
  by destruct (decide _).
Qed.

Lemma tag_all_source (s : string) (refs : list loc) (h : list Detection) (l : loc) :
  l ∈ refs → l < length h → det_source (deref (tag_all s refs h) l) = Some s.
Proof.
  revert h. induction refs as [|r refs IH] using rev_ind; intros h Hin Hlt.
  - by apply elem_of_nil in Hin.
  - unfold tag_all in *. rewrite foldl_app. simpl. rewrite deref_alter.
    destruct (decide _) as [[-> _]|Hn]; [done|].
    apply elem_of_app in Hin as [Hin|Hin]; [by apply IH|].
    apply list_elem_of_singleton in Hin as ->.
    exfalso. apply Hn. split; [done|]. fold (tag_all s refs h).
    by rewrite tag_all_length.
Qed.

Lemma deref_app_l (h news : list Detection) (l : loc) :
  l < length h → deref (h ++ news) l = deref h l.
Proof. intros Hl. unfold deref. by rewrite lookup_total_app_l. Qed.

Lemma deref_app_r (h news : list Detection) (k : nat) :
  k < length news → deref (h ++ news) (length h + k) = news !!! k.
Proof.
  intros Hk. unfold deref. rewrite lookup_total_app_r by lia.
  f_equal. lia.
Qed.

Lemma refs_valid_app (h news : list Detection) (refs : list loc) :
  refs_valid h refs → refs_valid (h ++ news) refs.
Proof.
  unfold refs_valid. intros Hv. eapply Forall_impl; [exact Hv|].
  intros l Hl. simpl in *. rewrite length_app. lia.
Qed.

Lemma refs_valid_tag_all (s : string) (rs : list loc) (h : list Detection)
    (refs : list loc) :
  refs_valid h refs → refs_valid (tag_all s rs h) refs.
Proof. unfold refs_valid. by rewrite tag_all_length. Qed.

(** ** The search for the best GPT detection *)

Section BestMatch.

Variable self : EnsembleAggregator.

Lemma candidate_app (h : list Detection) (d : Detection) (pre : list loc)
    (g : loc) (j : nat) (g' : loc) (iou : Q) :
  candidate h d (pre ++ [g]) j g' iou
  ↔ candidate h d pre j g' iou
    ∨ (j = length pre ∧ g' = g ∧ det_class d = det_class (deref h g)
       ∧ iou = calculate_iou (det_bbox d) (det_bbox (deref h g))).
Proof.
  unfold candidate. rewrite lookup_app_Some, list_lookup_singleton_Some.
  split.
  - intros [[Hl|(Hlen & Hj & ->)] [Hc Hi]]; [left; done|right].
    split; [lia|done].
  - intros [(Hl & Hc & Hi)|(-> & -> & Hc & Hi)]; [tauto|].
    split; [right|done]. split; [lia|]. split; [lia|done].
Qed.

Lemma candidate_lt (h : list Detection) (d : Detection) (pre : list loc)
    (j : nat) (g : loc) (iou : Q) :
  candidate h d pre j g iou → j < length pre.
Proof. intros [Hl _]. by eapply lookup_lt_Some. Qed.

Lemma find_best_match_inv (h : list Detection) (d : Detection)
    (rest pre : list loc) (best : BestMatch) :
  best_so_far h d pre best →
  best_so_far h d (pre ++ rest) (find_best_match h d rest (length pre) best).
Proof.
  revert pre best. induction rest as [|g rest IH]; intros pre best Hinv; simpl.
  - by rewrite app_nil_r.
  - rewrite cons_middle, app_assoc.
    replace (S (length pre)) with (length (pre ++ [g]))
      by (rewrite length_app; simpl; lia).
    apply IH. clear IH. destruct Hinv as [Hmax Hbest].
    destruct (String.eqb_spec (det_class d) (det_class (deref h g))) as [Hc|Hc].
    + destruct (Qlt_bool (best_iou best)
                  (calculate_iou (det_bbox d) (det_bbox (deref h g)))) eqn:E.
      * apply Qlt_bool_iff in E. split; simpl.
        -- intros j g' iou [Hold|(_ & _ & _ & ->)]%candidate_app; [|apply Qle_refl].
           apply Qlt_le_weak. eapply Qle_lt_trans; [by eapply Hmax|done].
        -- split; [apply candidate_app; right; done|]. split.
           ++ destruct (best_match best) as [[j0 g0]|].
              ** destruct Hbest as (_ & Hpos & _). by eapply Qlt_trans.
              ** by rewrite Hbest in E.
           ++ intros j' g' iou' Hlt [Hold|(-> & _)]%candidate_app; [|lia].
              eapply Qle_lt_trans; [by eapply Hmax|done].
      * apply Qlt_bool_false_iff in E. split.
        -- intros j g' iou [Hold|(_ & _ & _ & ->)]%candidate_app; [|done].
           by eapply Hmax.
        -- destruct (best_match best) as [[j0 g0]|]; [|done].
           destruct Hbest as (Hcand & Hpos & Hfirst).
           split; [apply candidate_app; by left|]. split; [done|].
           intros j' g' iou' Hlt [Hold|(-> & _)]%candidate_app; [by eapply Hfirst|].
           apply candidate_lt in Hcand. lia.
    + split.
      * intros j g' iou [Hold|(_ & _ & ? & _)]%candidate_app; [|done].
        by eapply Hmax.
      * destruct (best_match best) as [[j0 g0]|]; [|done].
        destruct Hbest as (Hcand & Hpos & Hfirst).
        split; [apply candidate_app; by left|]. split; [done|].
        intros j' g' iou' Hlt [Hold|(-> & _)]%candidate_app; [by eapply Hfirst|].
        apply candidate_lt in Hcand. lia.
Qed.

Lemma best_for_spec (h : list Detection) (d : Detection) (gpt_results : list loc) :
  best_so_far h d gpt_results (best_for h d gpt_results).
Proof.
  unfold best_for. apply (find_best_match_inv h d gpt_results []).
  split; [|done]. intros j g iou [Hl _]. by rewrite lookup_nil in Hl.
Qed.

Lemma find_best_match_ext (h h' : list Detection) (d : Detection)
    (gpt_results : list loc) (j : nat) (best : BestMatch) :
  (∀ g, g ∈ gpt_results → payload (deref h' g) = payload (deref h g)) →
  find_best_match h' d gpt_results j best = find_best_match h d gpt_results j best.
Proof.
  revert j best. induction gpt_results as [|g rest IH]; intros j best Hp; [done|].
  simpl. destruct (payload_fields _ _ (Hp g (list_elem_of_here _ _)))
    as (-> & _ & -> & _).
  apply IH. intros g' Hg'. apply Hp. by apply list_elem_of_further.
Qed.

Lemma match_of_ext (h h' : list Detection) (d : Detection) (gpt_results : list loc) :
  (∀ g, g ∈ gpt_results → payload (deref h' g) = payload (deref h g)) →
  match_of self h' d gpt_results = match_of self h d gpt_results.
Proof.
  intros Hp. unfold match_of, best_for. by rewrite (find_best_match_ext h h').
Qed.

Lemma match_of_Some (h : list Detection) (d : Detection) (gpt_results : list loc)
    (j : nat) (g : loc) :
  match_of self h d gpt_results = Returns (Some (j, g))
  ↔ best_match (best_for h d gpt_results) = Some (j, g)
    ∧ (iou_threshold self < best_iou (best_for h d gpt_results))%Q.
Proof.
  unfold match_of. rewrite <- Qlt_bool_iff.
  destruct (Qlt_bool _ _); [|split; [discriminate|intros [_ ?]; discriminate]].
  destruct (best_match _) as [m|]; split.
  - intros [=->]. done.
  - intros [[=->] _]. done.
  - discriminate.
  - intros [? _]. discriminate.
Qed.

Lemma match_of_elem (h : list Detection) (d : Detection) (gpt_results : list loc)
    (j : nat) (g : loc) :
  match_of self h d gpt_results = Returns (Some (j, g)) → gpt_results !! j = Some g.
Proof.
  intros [Hb _]%match_of_Some.
  destruct (best_for_spec h d gpt_results) as [_ Hs]. rewrite Hb in Hs.
  by destruct Hs as [[Hl _] _].
Qed.

(** With a threshold that is not negative the search never reaches
    [merge_detections(yolo_det, None)]. *)
Lemma match_of_returns (h : list Detection) (d : Detection) (gpt_results : list loc) :
  (0 <= iou_threshold self)%Q → ∃ m, match_of self h d gpt_results = Returns m.
Proof.
  intros Hthr. unfold match_of.
  destruct (Qlt_bool _ _) eqn:E; [|by eexists].
  destruct (best_match _) as [m|] eqn:Em; [by eexists|].
  destruct (best_for_spec h d gpt_results) as [_ Hs]. rewrite Em in Hs.
  rewrite Hs in E. apply Qlt_bool_iff in E. apply Qlt_not_le in E. contradiction.
Qed.

Lemma match_of_payload (h : list Detection) (d d' : Detection)
    (gpt_results : list loc) :
  payload d' = payload d →
  match_of self h d' gpt_results = match_of self h d gpt_results.
Proof.
  intros Hp. destruct (payload_fields _ _ Hp) as (Hc & _ & Hb & _).
  unfold match_of, best_for. generalize (mkBest 0 None) 0%nat.
  assert (Hf : ∀ b n, find_best_match h d' gpt_results n b
                      = find_best_match h d gpt_results n b).
  { induction gpt_results as [|g rest IH]; intros b n; [done|].
    simpl. rewrite Hc, Hb. apply IH. }
  intros b n. by rewrite Hf.
Qed.

Lemma merged_for_ext (h h' : list Detection) (gpt_results : list loc) (y : loc) :
  payload (deref h' y) = payload (deref h y) →
  (∀ g, g ∈ gpt_results → payload (deref h' g) = payload (deref h g)) →
  merged_for self h' gpt_results y = merged_for self h gpt_results y.
Proof.
  intros Hy Hp. unfold merged_for.
  destruct (payload_fields _ _ Hy) as (Hc & Hconf & Hb & _).
  rewrite (match_of_ext h h') by done.
  rewrite (match_of_payload h (deref h y) (deref h' y)) by done.
  destruct (match_of self h (deref h y) gpt_results) as [[[j g]|]|] eqn:E;
    [|done|done].
  apply match_of_elem in E. apply list_elem_of_lookup_2 in E.
  destruct (payload_fields _ _ (Hp g E)) as (Hc' & Hconf' & Hb' & _).
  unfold merge_detections. by rewrite Hc, Hconf, Hb, Hconf', Hb'.
Qed.

End BestMatch.

(** ** The matching loop and the candidate pool *)

Lemma omap_ext_Forall {A B : Type} (f g : A → option B) (l : list A) :
  Forall (fun x => f x = g x) l → omap f l = omap g l.
Proof.
  induction 1 as [|x l Hx _ IH]; simpl; [done|].
  rewrite Hx. destruct (g x); [f_equal|]; exact IH.
Qed.

Lemma omap_cons_eq {A B : Type} (f : A → option B) (x : A) (l : list A) :
  omap f (x :: l)
  = match f x with Some y => y :: omap f l | None => omap f l end.
Proof. reflexivity. Qed.

Lemma omap_length_le {A B : Type} (f : A → option B) (l : list A) :
  length (omap f l) ≤ length l.
Proof.
  induction l as [|x l IH]; [done|].
  rewrite omap_cons_eq. destruct (f x); simpl; lia.
Qed.

Lemma deref_fresh (h news : list Detection) :
  deref (h ++ news) <$> seq (length h) (length news) = news.
Proof.
  revert h. induction news as [|d news IH]; intros h; [done|].
  cbn [length seq fmap list_fmap]. f_equal.
  - unfold deref. by apply list_lookup_total_middle.
  - rewrite cons_middle, app_assoc.
    replace (S (length h)) with (length (h ++ [d])) by (rewrite length_app; simpl; lia).
    apply IH.
Qed.

Section MatchLoop.

Variable self : EnsembleAggregator.

Lemma match_loop_spec (gpt_results yolo_results : list loc) (i : nat)
    (st st' : AggState) :
  refs_valid (st_heap st) gpt_results →
  refs_valid (st_heap st) yolo_results →
  match_loop self gpt_results yolo_results i st = Returns st' →
  let h0 := st_heap st in
  let news := omap (merged_for self h0 gpt_results) yolo_results in
  st_heap st' = h0 ++ news
  ∧ ensemble_detections st'
    = ensemble_detections st ++ seq (length h0) (length news)
  ∧ (∀ n, n ∈ matched_yolo st'
          ↔ n ∈ matched_yolo st
            ∨ ∃ k y, n = i + k ∧ yolo_results !! k = Some y
                     ∧ is_Some (merged_for self h0 gpt_results y))
  ∧ (∀ j, j ∈ matched_gpt st'
          ↔ j ∈ matched_gpt st
            ∨ ∃ k y g, yolo_results !! k = Some y
                       ∧ match_of self h0 (deref h0 y) gpt_results
                         = Returns (Some (j, g))).
Proof.
  revert i st. induction yolo_results as [|y rest IH]; intros i st Hgpt Hyolo Hrun.
  - simpl in Hrun. injection Hrun as <-. simpl. rewrite !app_nil_r.
    split; [done|]. split; [done|]. split; intros n; split; try tauto.
    + intros [?|(k & y & _ & Hl & _)]; [done|]. by rewrite lookup_nil in Hl.
    + intros [?|(k & y & g & Hl & _)]; [done|]. by rewrite lookup_nil in Hl.
  - apply Forall_cons in Hyolo as [Hy Hrest]. simpl in Hrun.
    cbn zeta. rewrite omap_cons_eq.
    assert (Hmf := eq_refl (merged_for self (st_heap st) gpt_results y)).
    unfold merged_for at 2 in Hmf.
    destruct (match_of self (st_heap st) (deref (st_heap st) y) gpt_results)
      as [[[j g]|]|e] eqn:Em; simpl in Hrun; [| |discriminate]; rewrite Hmf.
    + (* the round merges [y] with the GPT detection [g] at index [j] *)
      set (merged := merge_detections self (deref (st_heap st) y)
                       (deref (st_heap st) g)) in *.
      set (h1 := st_heap st ++ [merged]) in *.
      assert (Hext : ∀ l, l < length (st_heap st) →
                          payload (deref h1 l) = payload (deref (st_heap st) l)).
      { intros l Hl. unfold h1. by rewrite deref_app_l. }
      assert (Hextg : ∀ g', g' ∈ gpt_results →
                            payload (deref h1 g') = payload (deref (st_heap st) g')).
      { intros g' Hg'. apply Hext. unfold refs_valid in Hgpt.
        rewrite Forall_forall in Hgpt. by apply Hgpt. }
      apply IH in Hrun; simpl; [|by apply refs_valid_app..].
      simpl in Hrun. fold h1 in Hrun.
      assert (Hnews : omap (merged_for self h1 gpt_results) rest
                      = omap (merged_for self (st_heap st) gpt_results) rest).
      { apply omap_ext_Forall. eapply Forall_impl; [exact Hrest|].
        intros y' Hy'. simpl in *. apply merged_for_ext; [by apply Hext|done]. }
      rewrite Hnews in Hrun. destruct Hrun as (Hheap & Hens & Hmy & Hmg).
      split; [|split; [|split]].
      * rewrite Hheap. unfold h1. by rewrite <- app_assoc.
      * rewrite Hens. unfold h1. rewrite length_app, <- app_assoc. simpl.
        do 3 f_equal. lia.
      * intros n. rewrite Hmy, elem_of_union, elem_of_singleton. split.
        -- intros [[->|Hn]|(k & y' & -> & Hl & Hs)]; [right|by left|right].
           ++ exists 0, y. split; [lia|]. split; [done|].
              rewrite Hmf. by eexists.
           ++ exists (S k), y'. split; [lia|]. split; [done|].
              rewrite <- (merged_for_ext self (st_heap st) h1); [done| |done].
              apply Hext. unfold refs_valid in Hrest. rewrite Forall_forall in Hrest.
              apply Hrest. by eapply list_elem_of_lookup_2.
        -- intros [Hn|(k & y' & -> & Hl & Hs)]; [left; by right|].
           destruct k as [|k]; simpl in Hl.
           ++ left. left. lia.
           ++ right. exists k, y'. split; [lia|]. split; [done|].
              rewrite (merged_for_ext self (st_heap st) h1); [done| |done].
              apply Hext. unfold refs_valid in Hrest. rewrite Forall_forall in Hrest.
              apply Hrest. by eapply list_elem_of_lookup_2.
      * assert (Hmo : ∀ y', y' ∈ rest →
                  match_of self h1 (deref h1 y') gpt_results
                  = match_of self (st_heap st) (deref (st_heap st) y') gpt_results).
        { intros y' Hy'. rewrite (match_of_ext self (st_heap st) h1) by done.
          unfold h1. rewrite deref_app_l; [done|].
          unfold refs_valid in Hrest. rewrite Forall_forall in Hrest. by apply Hrest. }
        intros n. rewrite Hmg, elem_of_union, elem_of_singleton. split.
        -- intros [[->|Hn]|(k & y' & g' & Hl & Hs)]; [right|by left|right].
           ++ by exists 0, y, g.
           ++ exists (S k), y', g'. split; [done|].
              rewrite <- Hmo; [done|]. by eapply list_elem_of_lookup_2.
        -- intros [Hn|(k & y' & g' & Hl & Hs)]; [left; by right|].
           destruct k as [|k]; simpl in Hl.
           ++ injection Hl as <-. rewrite Em in Hs. injection Hs as -> _.
              left; by left.
           ++ right. exists k, y', g'. split; [done|].
              rewrite Hmo; [done|]. by eapply list_elem_of_lookup_2.
    + (* no match for [y] *)
      apply IH in Hrun; [|done..].
      destruct Hrun as (Hheap & Hens & Hmy & Hmg).
      split; [done|]. split; [done|]. split.
      * intros n. rewrite Hmy. split.
        -- intros [Hn|(k & y' & -> & Hl & Hs)]; [by left|right].
           exists (S k), y'. split; [lia|done].
        -- intros [Hn|(k & y' & -> & Hl & Hs)]; [by left|].
           destruct k as [|k]; simpl in Hl.
           ++ injection Hl as <-. rewrite Hmf in Hs. by destruct Hs.
           ++ right. exists k, y'. split; [lia|done].
      * intros n. rewrite Hmg. split.
        -- intros [Hn|(k & y' & g' & Hl & Hs)]; [by left|right].
           by exists (S k), y', g'.
        -- intros [Hn|(k & y' & g' & Hl & Hs)]; [by left|].
           destruct k as [|k]; simpl in Hl.
           ++ injection Hl as <-. rewrite Em in Hs. discriminate.
           ++ right. by exists k, y', g'.
Qed.

Lemma match_loop_returns (gpt_results yolo_results : list loc) (i : nat)
    (st : AggState) :
  (0 <= iou_threshold self)%Q →
  ∃ st', match_loop self gpt_results yolo_results i st = Returns st'.
Proof.
  intros Hthr. revert i st.
  induction yolo_results as [|y rest IH]; intros i st; simpl; [by eexists|].
  destruct (match_of_returns self (st_heap st) (deref (st_heap st) y) gpt_results Hthr)
    as [m Hm]; rewrite Hm; simpl; destruct m as [[j g]|]; apply IH.
Qed.

Lemma add_unmatched_elem (h : list Detection) (matched : gset nat)
    (results : list loc) (i : nat) (pool : list loc) (r : loc) :
  r ∈ add_unmatched h matched results i pool
  ↔ r ∈ pool
    ∨ ∃ k, results !! k = Some r ∧ ((i + k) ∉ matched)
           ∧ (retention_threshold < det_confidence (deref h r))%Q.
Proof.
  revert i pool. induction results as [|d rest IH]; intros i pool; simpl.
  - split; [by left|]. intros [?|(k & Hl & _)]; [done|]. by rewrite lookup_nil in Hl.
  - rewrite IH. clear IH. split.
    + intros [Hin|(k & Hl & Hm & Hc)].
      * destruct (bool_decide (i ∉ matched)) eqn:Ei; [|by left].
        destruct (Qlt_bool _ _) eqn:Ec; [|by left].
        apply elem_of_app in Hin as [Hin|Hin]; [by left|].
        apply list_elem_of_singleton in Hin as ->.
        right. exists 0. apply bool_decide_eq_true in Ei. apply Qlt_bool_iff in Ec.
        split; [done|]. split; [|done]. by rewrite Nat.add_0_r.
      * right. exists (S k). split; [done|]. split; [|done].
        by rewrite Nat.add_succ_r.
    + intros [Hin|(k & Hl & Hm & Hc)].
      * left. destruct (bool_decide _); [|done]. destruct (Qlt_bool _ _); [|done].
        apply elem_of_app. by left.
      * destruct k as [|k]; simpl in Hl.
        -- injection Hl as ->. left. rewrite Nat.add_0_r in Hm.
           rewrite bool_decide_eq_true_2 by done.
           apply Qlt_bool_iff in Hc. rewrite Hc. apply elem_of_app. right.
           by apply list_elem_of_singleton.
        -- right. exists k. split; [done|]. split; [|done].
           by rewrite Nat.add_succ_r in Hm.
Qed.

End MatchLoop.

(** ** aggregate *)

Section Aggregate.

Variable self : EnsembleAggregator.

Lemma tagged_payload (h : list Detection) (yolo_results gpt_results : list loc)
    (l : loc) :
  payload (deref (tag_all "gpt" gpt_results (tag_all "yolo" yolo_results h)) l)
  = payload (deref h l).
Proof. by rewrite !tag_all_payload. Qed.

Lemma candidate_pool_spec (h : list Detection) (yolo_results gpt_results : list loc)
    (st : AggState) (pool : list loc) :
  refs_valid h yolo_results → refs_valid h gpt_results →
  candidate_pool self h yolo_results gpt_results = Returns (st, pool) →
  let h2 := tag_all "gpt" gpt_results (tag_all "yolo" yolo_results h) in
  let news := omap (merged_for self h gpt_results) yolo_results in
  st_heap st = h2 ++ news
  ∧ ensemble_detections st = seq (length h) (length news)
  ∧ (∀ i, i ∈ matched_yolo st
          ↔ ∃ y, yolo_results !! i = Some y
                 ∧ is_Some (merged_for self h gpt_results y))
  ∧ (∀ j, j ∈ matched_gpt st
          ↔ ∃ i y g, yolo_results !! i = Some y
                     ∧ match_of self h (deref h y) gpt_results
                       = Returns (Some (j, g)))
  ∧ (∀ r, r ∈ pool
          ↔ r ∈ ensemble_detections st
            ∨ (∃ i, yolo_results !! i = Some r ∧ (i ∉ matched_yolo st)
                    ∧ (retention_threshold < det_confidence (deref h r))%Q)
            ∨ (∃ j, gpt_results !! j = Some r ∧ (j ∉ matched_gpt st)
                    ∧ (retention_threshold < det_confidence (deref h r))%Q)).
Proof.
  intros Hyolo Hgpt Hrun h2 news. unfold candidate_pool in Hrun. fold h2 in Hrun.
  destruct (match_loop self gpt_results yolo_results 0 (mkAggState h2 [] ∅ ∅))
    as [st0|e] eqn:Eloop; simpl in Hrun; [|discriminate].
  injection Hrun as <- <-.
  assert (Hlen : length h2 = length h) by (unfold h2; by rewrite !tag_all_length).
  assert (Hp : ∀ l, payload (deref h2 l) = payload (deref h l))
    by (intros l; apply tagged_payload).
  apply match_loop_spec in Eloop; simpl;
    [|unfold h2; by do 2 apply refs_valid_tag_all..].
  simpl in Eloop.
  assert (Hmf : ∀ y, merged_for self h2 gpt_results y = merged_for self h gpt_results y)
    by (intros y; by apply merged_for_ext).
  assert (Hmo : ∀ y, match_of self h2 (deref h2 y) gpt_results
                     = match_of self h (deref h y) gpt_results).
  { intros y. rewrite (match_of_ext self h h2) by done. by apply match_of_payload. }
  assert (Hnews : omap (merged_for self h2 gpt_results) yolo_results = news).
  { apply omap_ext_Forall, Forall_forall. intros y _. apply Hmf. }
  rewrite Hnews, Hlen in Eloop. destruct Eloop as (Hheap & Hens & Hmy & Hmg).
  assert (Hconf : ∀ r, r < length h →
            det_confidence (deref (st_heap st0) r) = det_confidence (deref h r)).
  { intros r Hr. rewrite Hheap, deref_app_l by lia.
    by destruct (payload_fields _ _ (Hp r)) as (_ & -> & _). }
  split; [done|]. split; [done|]. split; [|split].
  - intros i. rewrite Hmy. split.
    + intros [Hi|(k & y & -> & Hl & Hs)]; [by apply elem_of_empty in Hi|].
      exists y. by rewrite <- Hmf.
    + intros (y & Hl & Hs). right. exists i, y. by rewrite Hmf.
  - intros j. rewrite Hmg. split.
    + intros [Hj|(k & y & g & Hl & Hs)]; [by apply elem_of_empty in Hj|].
      exists k, y, g. by rewrite <- Hmo.
    + intros (k & y & g & Hl & Hs). right. exists k, y, g. by rewrite Hmo.
  - intros r. rewrite !add_unmatched_elem. split.
    + intros [[Hr|(k & Hl & Hm & Hc)]|(k & Hl & Hm & Hc)]; [by left|right; left|right; right].
      * exists k. split; [done|]. split; [done|]. rewrite <- Hconf; [done|].
        unfold refs_valid in Hyolo. rewrite Forall_forall in Hyolo.
        apply Hyolo. by eapply list_elem_of_lookup_2.
      * exists k. split; [done|]. split; [done|]. rewrite <- Hconf; [done|].
        unfold refs_valid in Hgpt. rewrite Forall_forall in Hgpt.
        apply Hgpt. by eapply list_elem_of_lookup_2.
    + intros [Hr|[(k & Hl & Hm & Hc)|(k & Hl & Hm & Hc)]]; [left; by left|left; right|right].
      * exists k. split; [done|]. split; [done|]. rewrite Hconf; [done|].
        unfold refs_valid in Hyolo. rewrite Forall_forall in Hyolo.
        apply Hyolo. by eapply list_elem_of_lookup_2.
      * exists k. split; [done|]. split; [done|]. rewrite Hconf; [done|].
        unfold refs_valid in Hgpt. rewrite Forall_forall in Hgpt.
        apply Hgpt. by eapply list_elem_of_lookup_2.
Qed.

(** With a threshold that is not negative [aggregate] returns. *)
Lemma aggregate_returns (h : list Detection) (yolo_results gpt_results : list loc) :
  (0 <= iou_threshold self)%Q →
  ∃ st pool,
    candidate_pool self h yolo_results gpt_results = Returns (st, pool)
    ∧ aggregate self h yolo_results gpt_results
      = Returns (st_heap st, apply_nms self (st_heap st) pool).
Proof.
  intros Hthr. unfold aggregate, candidate_pool.
  destruct (match_loop_returns self gpt_results yolo_results 0
              (mkAggState
                 (tag_all "gpt" gpt_results (tag_all "yolo" yolo_results h)) [] ∅ ∅)
              Hthr) as [st ->].
  simpl. by do 2 eexists.
Qed.

Lemma aggregate_inv (h : list Detection) (yolo_results gpt_results : list loc)
    (h' : list Detection) (out : list loc) :
  aggregate self h yolo_results gpt_results = Returns (h', out) →
  ∃ st pool,
    candidate_pool self h yolo_results gpt_results = Returns (st, pool)
    ∧ h' = st_heap st ∧ out = apply_nms self (st_heap st) pool.
Proof.
  unfold aggregate.
  destruct (candidate_pool self h yolo_results gpt_results) as [[st pool]|e];
    [|discriminate].
  intros [= <- <-]. by exists st, pool.
Qed.

End Aggregate.

(** ** Properties of aggregate *)

Lemma int_mean_quot (a b : Z) : int_mean a b = Z.quot (a + b) 2.
Proof.
  unfold int_mean, py_int_of_float, py_truediv. simpl. by rewrite Z.mul_1_r.
Qed.

(** C2.  With one YOLO detection of confidence 0.85 and no GPT detection,
    [aggregate] returns the list holding that same detection object and
    nothing else; in the store the object differs from what it was only by
    its source tag, which [aggregate] stamps on every input. *)
Theorem aggregate_single_yolo (self : EnsembleAggregator) (h : list Detection)
    (l : loc) :
  l < length h →
  (0 <= iou_threshold self)%Q →
  (det_confidence (deref h l) == 85 # 100)%Q →
  let h' := alter (set_source "yolo") l h in
  aggregate self h [l] [] = Returns (h', [l])
  ∧ deref h' l = set_source "yolo" (deref h l)
  ∧ ∀ l', l' ≠ l → deref h' l' = deref h l'.
Proof.
  intros Hl Hthr Hconf h'.
  assert (Hd : deref h' l = set_source "yolo" (deref h l)).
  { unfold h'. rewrite deref_alter. by rewrite decide_True. }
  split; [|split; [done|]].
  - unfold aggregate, candidate_pool. simpl. fold h'.
    unfold match_of, best_for. simpl.
    assert (Ht : Qlt_bool (iou_threshold self) 0 = false)
      by by apply Qlt_bool_false_iff.
    rewrite Ht. simpl.
    rewrite bool_decide_eq_true_2 by apply not_elem_of_empty.
    assert (Hc : Qlt_bool retention_threshold (det_confidence (deref h' l)) = true).
    { apply Qlt_bool_iff. rewrite Hd. simpl. rewrite Hconf. reflexivity. }
    by rewrite Hc.
  - intros l' Hne. unfold h'. rewrite deref_alter. rewrite decide_False; [done|].
    intros [? _]. congruence.
Qed.

Lemma aggregate_single_yolo_witness :
  aggregate default_aggregator [detection "damaged_rivet" (85 # 100) 100 100 50 50]
    [0] []
  = Returns ([set_source "yolo" (detection "damaged_rivet" (85 # 100) 100 100 50 50)],
             [0]).
Proof.
  apply (aggregate_single_yolo default_aggregator
           [detection "damaged_rivet" (85 # 100) 100 100 50 50] 0).
  - simpl. lia.
  - vm_compute. discriminate.
  - reflexivity.
Defined.

(** C5.  An input detection is in the candidate pool if and only if it sits
    at an unmatched index of its list and its confidence exceeds 0.7; an
    input detection of confidence 0.7 or less is neither in the pool nor in
    what [aggregate] returns. *)
Theorem unmatched_retention (self : EnsembleAggregator) (h : list Detection)
    (yolo_results gpt_results : list loc) (st : AggState) (pool : list loc) :
  refs_valid h yolo_results → refs_valid h gpt_results →
  candidate_pool self h yolo_results gpt_results = Returns (st, pool) →
  (∀ r, r < length h →
     (r ∈ pool
      ↔ (∃ i, yolo_results !! i = Some r ∧ (i ∉ matched_yolo st)
              ∧ (retention_threshold < det_confidence (deref h r))%Q)
        ∨ (∃ j, gpt_results !! j = Some r ∧ (j ∉ matched_gpt st)
                ∧ (retention_threshold < det_confidence (deref h r))%Q)))
  ∧ (∀ r, r < length h →
       (det_confidence (deref h r) <= retention_threshold)%Q →
       (r ∉ pool) ∧ (r ∉ apply_nms self (st_heap st) pool))
  ∧ aggregate self h yolo_results gpt_results
    = Returns (st_heap st, apply_nms self (st_heap st) pool).
Proof.
  intros Hyolo Hgpt Hrun.
  destruct (candidate_pool_spec self h yolo_results gpt_results st pool
              Hyolo Hgpt Hrun) as (_ & Hens & _ & _ & Hpool).
  assert (Hiff : ∀ r, r < length h →
     (r ∈ pool
      ↔ (∃ i, yolo_results !! i = Some r ∧ (i ∉ matched_yolo st)
              ∧ (retention_threshold < det_confidence (deref h r))%Q)
        ∨ (∃ j, gpt_results !! j = Some r ∧ (j ∉ matched_gpt st)
                ∧ (retention_threshold < det_confidence (deref h r))%Q))).
  { intros r Hr. rewrite Hpool. split; [|tauto].
    intros [Hin|H]; [|done]. rewrite Hens in Hin. apply elem_of_seq in Hin. lia. }
  split; [done|]. split.
  - intros r Hr Hlow.
    assert (Hno : r ∉ pool).
    { rewrite (Hiff r Hr).
      intros [(i & _ & _ & Hc)|(j & _ & _ & Hc)]; apply Qlt_not_le in Hc; contradiction. }
    split; [done|]. intros Hin. apply Hno. by eapply apply_nms_subseteq.
  - unfold aggregate. by rewrite Hrun.
Qed.

Lemma scenario_pool :
  ∃ st, candidate_pool default_aggregator scenario_store [0; 1] [2; 3]
        = Returns (st, [4; 1]).
Proof. eexists. vm_compute. reflexivity. Defined.

Lemma unmatched_retention_witness :
  ∃ st, candidate_pool default_aggregator scenario_store [0; 1] [2; 3]
        = Returns (st, [4; 1])
        ∧ (3 ∉ apply_nms default_aggregator (st_heap st) [4; 1])
        ∧ aggregate default_aggregator scenario_store [0; 1] [2; 3]
          = Returns (st_heap st, apply_nms default_aggregator (st_heap st) [4; 1]).
Proof.
  destruct scenario_pool as [st Hst]. exists st.
  destruct (unmatched_retention default_aggregator scenario_store [0; 1] [2; 3]
              st [4; 1]) as (Hiff & Hlow & Hagg).
  - repeat constructor; simpl; lia.
  - repeat constructor; simpl; lia.
  - exact Hst.
  - split; [exact Hst|]. split; [|exact Hagg].
    apply (Hlow 3); [simpl; lia|]. vm_compute. discriminate.
Defined.



(** C4, counterexample: the boxes at x = 0 and x = 1 match (IoU 90/110) and
    are merged into a box at x = 0, which is not their mean 1/2. *)
Lemma shifted_mean_cex :
  aggregate default_aggregator shifted_store [0] [1]
  = Returns (alter (set_source "gpt") 1 (alter (set_source "yolo") 0 shifted_store)
             ++ [merge_detections default_aggregator
                   (deref shifted_store 0) (deref shifted_store 1)],
             [2])
  ∧ ¬ (inject_Z (bbox_x (det_bbox (merge_detections default_aggregator
                                     (deref shifted_store 0%nat)
                                     (deref shifted_store 1%nat))))
       == (inject_Z (bbox_x (det_bbox (deref shifted_store 0%nat)))
           + inject_Z (bbox_x (det_bbox (deref shifted_store 1%nat)))) / 2)%Q.
Proof. split; [vm_compute; reflexivity|vm_compute; discriminate]. Qed.

(** C4 (amended).  The merged detections are, in order, one per YOLO
    detection whose best same-class IoU exceeds [iou_threshold]; for such a
    detection both indices are marked matched, and the merged detection has
    the weighted confidence, the class of the YOLO detection, the source
    [ensemble], and as box the coordinate-wise mean of the two boxes
    truncated toward zero to an integer. *)
Theorem matched_pair_merged (self : EnsembleAggregator) (h : list Detection)
    (yolo_results gpt_results : list loc) (st : AggState) (pool : list loc) :
  refs_valid h yolo_results → refs_valid h gpt_results →
  candidate_pool self h yolo_results gpt_results = Returns (st, pool) →
  deref (st_heap st) <$> ensemble_detections st
  = omap (merged_for self h gpt_results) yolo_results
  ∧ ∀ i y j g,
      yolo_results !! i = Some y →
      best_match (best_for h (deref h y) gpt_results) = Some (j, g) →
      (iou_threshold self < best_iou (best_for h (deref h y) gpt_results))%Q →
      ∃ merged,
        merged_for self h gpt_results y = Some merged
        ∧ i ∈ matched_yolo st ∧ j ∈ matched_gpt st
        ∧ det_confidence merged
          = (det_confidence (deref h y) * yolo_weight self
             + det_confidence (deref h g) * gpt_weight self)%Q
        ∧ det_bbox merged
          = {| bbox_x := Z.quot (bbox_x (det_bbox (deref h y))
                                 + bbox_x (det_bbox (deref h g))) 2;
               bbox_y := Z.quot (bbox_y (det_bbox (deref h y))
                                 + bbox_y (det_bbox (deref h g))) 2;
               bbox_width := Z.quot (bbox_width (det_bbox (deref h y))
                                     + bbox_width (det_bbox (deref h g))) 2;
               bbox_height := Z.quot (bbox_height (det_bbox (deref h y))
                                      + bbox_height (det_bbox (deref h g))) 2 |}
        ∧ det_class merged = det_class (deref h y)
        ∧ det_source merged = Some "ensemble"%string.
Proof.
  intros Hyolo Hgpt Hrun.
  destruct (candidate_pool_spec self h yolo_results gpt_results st pool
              Hyolo Hgpt Hrun) as (Hheap & Hens & Hmy & Hmg & _).
  split.
  - rewrite Hheap, Hens.
    rewrite <- (tag_all_length "yolo" yolo_results h).
    rewrite <- (tag_all_length "gpt" gpt_results (tag_all "yolo" yolo_results h)).
    apply deref_fresh.
  - intros i y j g Hy Hbest Hthr.
    assert (Hm : match_of self h (deref h y) gpt_results = Returns (Some (j, g)))
      by by apply match_of_Some.
    exists (merge_detections self (deref h y) (deref h g)).
    assert (Hmf : merged_for self h gpt_results y
                  = Some (merge_detections self (deref h y) (deref h g)))
      by (unfold merged_for; by rewrite Hm).
    split; [done|]. split; [|split].
    + apply Hmy. exists y. split; [done|]. rewrite Hmf. by eexists.
    + apply Hmg. by exists i, y, g.
    + unfold merge_detections. simpl. by rewrite !int_mean_quot.
Qed.

Lemma matched_pair_merged_witness :
  ∃ st, candidate_pool default_aggregator scenario_store [0; 1] [2; 3]
        = Returns (st, [4; 1])
        ∧ deref (st_heap st) <$> ensemble_detections st
          = [ mkDetection "damaged_rivet" ((85 # 100) * (6 # 10) + (80 # 100) * (4 # 10))%Q
                (mkBBox 101 151 49 59) (Some "ensemble") None ].
Proof.
  destruct scenario_pool as [st Hst]. exists st. split; [exact Hst|].
  destruct (matched_pair_merged default_aggregator scenario_store [0; 1] [2; 3]
              st [4; 1]) as (Hens & _).
  - repeat constructor; simpl; lia.
  - repeat constructor; simpl; lia.
  - exact Hst.
  - rewrite Hens. vm_compute. reflexivity.
Defined.

(** C1, counterexample: the two YOLO detections of [shared_store] both
    merge with the GPT detection at index 0. *)
Lemma shared_gpt_cex :
  ¬ one_match_per_gpt default_aggregator shared_store [0; 1] [2].
Proof.
  intros Hclaim.
  apply (Hclaim 0 1 0 1 0 0 2 2); [lia|reflexivity|reflexivity| | |reflexivity];
    vm_compute; reflexivity.
Qed.

(** C1 (amended).  Each YOLO detection merges with at most one GPT
    detection, the first one of highest same-class IoU, and yields at most
    one merged detection; a GPT detection is marked matched as soon as some
    YOLO detection merges with it, and nothing keeps a later YOLO detection
    from merging with it again. *)
Theorem greedy_matching (self : EnsembleAggregator) (h : list Detection)
    (yolo_results gpt_results : list loc) (st : AggState) (pool : list loc) :
  refs_valid h yolo_results → refs_valid h gpt_results →
  candidate_pool self h yolo_results gpt_results = Returns (st, pool) →
  (∀ i y j g,
     yolo_results !! i = Some y →
     match_of self h (deref h y) gpt_results = Returns (Some (j, g)) →
     let iou := calculate_iou (det_bbox (deref h y)) (det_bbox (deref h g)) in
     candidate h (deref h y) gpt_results j g iou
     ∧ (iou_threshold self < iou)%Q
     ∧ (∀ j' g' iou', candidate h (deref h y) gpt_results j' g' iou' →
          (iou' <= iou)%Q ∧ (j' < j → (iou' < iou)%Q))
     ∧ i ∈ matched_yolo st ∧ j ∈ matched_gpt st)
  ∧ length (ensemble_detections st)
    = length (omap (merged_for self h gpt_results) yolo_results)
  ∧ length (ensemble_detections st) ≤ length yolo_results
  ∧ (∀ j, j ∈ matched_gpt st
          ↔ ∃ i y g, yolo_results !! i = Some y
                     ∧ match_of self h (deref h y) gpt_results
                       = Returns (Some (j, g))).
Proof.
  intros Hyolo Hgpt Hrun.
  destruct (candidate_pool_spec self h yolo_results gpt_results st pool
              Hyolo Hgpt Hrun) as (_ & Hens & Hmy & Hmg & _).
  split; [|split; [|split]].
  - intros i y j g Hy Hm iou.
    pose proof Hm as [Hbest Hthr]%match_of_Some.
    destruct (best_for_spec h (deref h y) gpt_results) as [Hmax Hsome].
    rewrite Hbest in Hsome. destruct Hsome as (Hcand & _ & Hfirst).
    assert (Hiou : best_iou (best_for h (deref h y) gpt_results) = iou)
      by (by destruct Hcand as (_ & _ & ->)).
    rewrite Hiou in *. split; [done|]. split; [done|]. split; [|split].
    + intros j' g' iou' Hc'. split; [by eapply Hmax|].
      intros Hlt. by eapply Hfirst.
    + apply Hmy. exists y. split; [done|]. unfold merged_for. rewrite Hm. by eexists.
    + apply Hmg. by exists i, y, g.
  - rewrite Hens. by rewrite length_seq.
  - rewrite Hens, length_seq. apply omap_length_le.
  - exact Hmg.
Qed.

Lemma greedy_matching_witness :
  ∃ st, candidate_pool default_aggregator shared_store [0; 1] [2]
        = Returns (st, [3; 4])
        ∧ length (ensemble_detections st) = 2
        ∧ ∀ j, j ∈ matched_gpt st
               ↔ ∃ i y g, [0; 1] !! i = Some y
                          ∧ match_of default_aggregator shared_store
                              (deref shared_store y) [2]
                            = Returns (Some (j, g)).
Proof.
  assert (Hst : ∃ st, candidate_pool default_aggregator shared_store [0; 1] [2]
                      = Returns (st, [3; 4]))
    by (eexists; vm_compute; reflexivity).
  destruct Hst as [st Hst]. exists st. split; [exact Hst|].
  destruct (greedy_matching default_aggregator shared_store [0; 1] [2] st [3; 4])
    as (_ & Hlen & _ & Hmg).
  - repeat constructor; simpl; lia.
  - repeat constructor; simpl; lia.
  - exact Hst.
  - split; [|exact Hmg]. rewrite Hlen. vm_compute. reflexivity.
Defined.

(** ** GPTVisionClient.parse_response *)

Lemma dict_has_false (fields : list (string * json)) (k : string) :
  dict_has fields k = false ↔ dict_get fields k = None.
Proof. unfold dict_has. destruct (dict_get fields k); split; congruence. Qed.

Lemma known_class_None (v : json) :
  known_class v = None ↔ ∀ s, v = JStr s → s ∉ DEFECT_CLASSES.
Proof.
  destruct v; simpl; try (split; [intros _ s' [=]|done]).
  destruct (bool_decide (s ∈ DEFECT_CLASSES)) eqn:E.
  - apply bool_decide_eq_true in E. split; [discriminate|].
    intros H. exfalso. by apply (H s).
  - apply bool_decide_eq_false in E. split; [|done]. by intros _ s' [= <-].
Qed.

Lemma accepted_None (det : json) : accepted det = None ↔ malformed_element det.
Proof.
  destruct det as [| | | | | |fields]; simpl; try tauto.
  destruct (dict_get fields "class") as [c|] eqn:Ec;
    [|split; [tauto|by rewrite (proj2 (dict_has_false fields "class") Ec)]].
  destruct (dict_get fields "confidence") as [cf|] eqn:Ef;
    [|split; [tauto|by rewrite (proj2 (dict_has_false fields "confidence") Ef), orb_true_r]].
  destruct (dict_get fields "bbox") as [bb|] eqn:Eb;
    [|split; [tauto|by rewrite (proj2 (dict_has_false fields "bbox") Eb), orb_true_r]].
  unfold dict_has. rewrite Ec, Ef, Eb. simpl.
  destruct (known_class c) as [s|] eqn:Ek.
  - split; [discriminate|]. intros [?|[?|[?|H]]]; try discriminate.
    assert (Hn : known_class c = None).
    { apply known_class_None. intros s' ->. by apply H. }
    congruence.
  - split; [|done]. intros _. do 3 right. intros s [= ->].
    by apply (proj1 (known_class_None (JStr s)) Ek).
Qed.

Section ParseResponseFacts.

Variable json_loads : string → option json.
Variable float_of_str : string → option Q.
Variable int_of_str : string → option Z.

Lemma parse_loop_spec (items : list json) (detections : list Detection) :
  parse_loop float_of_str int_of_str items detections
  = (formatted ← mapM (format_accepted float_of_str int_of_str)
                   (omap accepted items);
     mret (detections ++ formatted)).
Proof.
  revert detections. induction items as [|det rest IH]; intros detections.
  - simpl. by rewrite app_nil_r.
  - rewrite omap_cons_eq. simpl.
    destruct (accepted det) as [[class_name fields]|]; [|apply IH].
    simpl. change (format_accepted float_of_str int_of_str (class_name, fields))
      with (format_detection float_of_str int_of_str class_name fields).
    destruct (format_detection float_of_str int_of_str class_name fields)
      as [detection|e]; [|done].
    simpl. rewrite IH.
    destruct (mapM (format_accepted float_of_str int_of_str) (omap accepted rest))
      as [formatted|e]; [|done].
    simpl. unfold mret, outcome_ret. by rewrite <- app_assoc.
Qed.

Lemma parse_loop_all_skipped (items : list json) (detections : list Detection) :
  Forall (fun det => accepted det = None) items →
  parse_loop float_of_str int_of_str items detections = Returns detections.
Proof.
  intros Hall. revert detections.
  induction Hall as [|det rest Hdet _ IH]; intros detections; [done|].
  simpl. rewrite Hdet. apply IH.
Qed.

Lemma parse_response_array (response_text : string) (items : list json) :
  json_loads (strip_fences response_text) = Some (JArr items) →
  parse_response json_loads float_of_str int_of_str response_text
  = match mapM (format_accepted float_of_str int_of_str) (omap accepted items) with
    | Returns detections => Returns detections
    | Raises _ => Returns []
    end.
Proof.
  intros Hload. unfold parse_response, parse_response_body.
  rewrite Hload. simpl. rewrite parse_loop_spec.
  by destruct (mapM (format_accepted float_of_str int_of_str) (omap accepted items)).
Qed.

Lemma parse_response_not_array (response_text : string) (v : json) :
  json_loads (strip_fences response_text) = Some v →
  (∀ items, v ≠ JArr items) →
  parse_response json_loads float_of_str int_of_str response_text = Returns [].
Proof.
  intros Hload Hv. unfold parse_response, parse_response_body.
  rewrite Hload. destruct v as [| | | |s|items|fields]; simpl; try done.
  - rewrite parse_loop_all_skipped; [done|].
    apply Forall_forall. intros det (c & -> & _)%list_elem_of_fmap. done.
  - by destruct (Hv items).
  - rewrite parse_loop_all_skipped; [done|].
    apply Forall_forall. intros det (kv & -> & _)%list_elem_of_fmap. done.
Qed.

Lemma parse_response_returns (response_text : string) :
  ∃ detections, parse_response json_loads float_of_str int_of_str response_text = Returns detections.
Proof.
  unfold parse_response.
  destruct (parse_response_body _ _ _ _); by eexists.
Qed.

End ParseResponseFacts.

(** C7, counterexample: the well-formed second element of [mixed_batch] is
    not kept; the [null] confidence of the third element empties the whole
    result. *)
Lemma mixed_batch_cex :
  accepted crack_element
  = Some ("crack"%string,
          [("class", JStr "crack"); ("confidence", JFloat (75 # 100));
           ("bbox", JObj [("x", JInt 200); ("y", JInt 250);
                          ("width", JInt 40); ("height", JInt 50)])]%string)
  ∧ crack_element ∈ mixed_batch
  ∧ parse_response (fun _ => Some (JArr mixed_batch)) (fun _ => None) (fun _ => None)
      "[]"
    = Returns [].
Proof.
  split; [vm_compute; reflexivity|]. split; [|vm_compute; reflexivity].
  unfold mixed_batch. apply list_elem_of_further, list_elem_of_here.
Qed.

(** C7 (amended).  [parse_response] never raises; it returns the empty list
    when the text does not decode or decodes to something that is not an
    array; elements that are not objects, miss a required key or carry an
    unknown class are dropped; the other elements are kept, in order, when
    each of them converts, and the result is empty when one of them does
    not. *)
Theorem parse_response_policy (json_loads : string → option json)
    (float_of_str : string → option Q) (int_of_str : string → option Z)
    (response_text : string) :
  let parse := parse_response json_loads float_of_str int_of_str in
  (∃ detections, parse response_text = Returns detections)
  ∧ (json_loads (strip_fences response_text) = None →
     parse response_text = Returns [])
  ∧ (∀ v, json_loads (strip_fences response_text) = Some v →
          (∀ items, v ≠ JArr items) → parse response_text = Returns [])
  ∧ (∀ items, json_loads (strip_fences response_text) = Some (JArr items) →
       parse response_text
       = match mapM (format_accepted float_of_str int_of_str)
                 (omap accepted items) with
         | Returns detections => Returns detections
         | Raises _ => Returns []
         end)
  ∧ (∀ det, accepted det = None ↔ malformed_element det).
Proof.
  intros parse. split; [apply parse_response_returns|]. split; [|split; [|split]].
  - intros Hload. unfold parse, parse_response, parse_response_body.
    by rewrite Hload.
  - apply parse_response_not_array.
  - apply parse_response_array.
  - apply accepted_None.
Qed.

Lemma parse_response_policy_witness :
  parse_response (fun _ => Some (JArr clean_batch)) (fun _ => None) (fun _ => None) "[]"
  = Returns [mkDetection "crack" (75 # 100) (mkBBox 200 250 40 50) None None]
  ∧ parse_response (fun _ => Some JNull) (fun _ => None) (fun _ => None) "null"
    = Returns []
  ∧ parse_response (fun _ => None) (fun _ => None) (fun _ => None) "oops"
    = Returns [].
Proof.
  split; [|split].
  - destruct (parse_response_policy (fun _ => Some (JArr clean_batch))
                (fun _ => None) (fun _ => None) "[]") as (_ & _ & _ & Harr & _).
    rewrite (Harr clean_batch eq_refl). vm_compute. reflexivity.
  - destruct (parse_response_policy (fun _ => Some JNull)
                (fun _ => None) (fun _ => None) "null") as (_ & _ & Hna & _).
    apply (Hna JNull eq_refl). discriminate.
  - destruct (parse_response_policy (fun _ => None)
                (fun _ => None) (fun _ => None) "oops") as (_ & Hnone & _).
    apply Hnone. reflexivity.
Defined.

(** * Further properties

    ** calculate_iou *)

Lemma iou_parts_sym (bbox1 bbox2 : BBox) :
  x_left bbox1 bbox2 = x_left bbox2 bbox1
  ∧ y_top bbox1 bbox2 = y_top bbox2 bbox1
  ∧ x_right bbox1 bbox2 = x_right bbox2 bbox1
  ∧ y_bottom bbox1 bbox2 = y_bottom bbox2 bbox1
  ∧ intersection_area bbox1 bbox2 = intersection_area bbox2 bbox1
  ∧ union_area bbox1 bbox2 = union_area bbox2 bbox1.
Proof.
  assert (Hxl : x_left bbox1 bbox2 = x_left bbox2 bbox1) by apply Z.max_comm.
  assert (Hyt : y_top bbox1 bbox2 = y_top bbox2 bbox1) by apply Z.max_comm.
  assert (Hxr : x_right bbox1 bbox2 = x_right bbox2 bbox1) by apply Z.min_comm.
  assert (Hyb : y_bottom bbox1 bbox2 = y_bottom bbox2 bbox1) by apply Z.min_comm.
  assert (Hi : intersection_area bbox1 bbox2 = intersection_area bbox2 bbox1)
    by (unfold intersection_area; by rewrite Hxl, Hyt, Hxr, Hyb).
  repeat (split; [done|]). unfold union_area. rewrite Hi. lia.
Qed.

(** X1.  [calculate_iou] does not depend on the order of its arguments. *)
Theorem calculate_iou_sym (bbox1 bbox2 : BBox) :
  calculate_iou bbox1 bbox2 = calculate_iou bbox2 bbox1.
Proof.
  destruct (iou_parts_sym bbox1 bbox2) as (Hxl & Hyt & Hxr & Hyb & Hi & Hu).
  unfold calculate_iou. by rewrite Hxl, Hyt, Hxr, Hyb, Hi, Hu.
Qed.

Lemma intersection_area_bounds (bbox1 bbox2 : BBox) :
  bbox_wf bbox1 → bbox_wf bbox2 →
  (x_left bbox1 bbox2 <= x_right bbox1 bbox2)%Z →
  (y_top bbox1 bbox2 <= y_bottom bbox1 bbox2)%Z →
  (0 <= intersection_area bbox1 bbox2
   ∧ intersection_area bbox1 bbox2 <= bbox_area bbox1
   ∧ intersection_area bbox1 bbox2 <= bbox_area bbox2)%Z.
Proof.
  intros [Hw1 Hh1] [Hw2 Hh2] Hx Hy.
  unfold intersection_area, bbox_area, x_left, x_right, y_top, y_bottom in *.
  assert (Hdx1 : (Z.min (bbox_x bbox1 + bbox_width bbox1) (bbox_x bbox2 + bbox_width bbox2)
                  - Z.max (bbox_x bbox1) (bbox_x bbox2) <= bbox_width bbox1)%Z) by lia.
  assert (Hdx2 : (Z.min (bbox_x bbox1 + bbox_width bbox1) (bbox_x bbox2 + bbox_width bbox2)
                  - Z.max (bbox_x bbox1) (bbox_x bbox2) <= bbox_width bbox2)%Z) by lia.
  assert (Hdy1 : (Z.min (bbox_y bbox1 + bbox_height bbox1) (bbox_y bbox2 + bbox_height bbox2)
                  - Z.max (bbox_y bbox1) (bbox_y bbox2) <= bbox_height bbox1)%Z) by lia.
  assert (Hdy2 : (Z.min (bbox_y bbox1 + bbox_height bbox1) (bbox_y bbox2 + bbox_height bbox2)
                  - Z.max (bbox_y bbox1) (bbox_y bbox2) <= bbox_height bbox2)%Z) by lia.
  split; [apply Z.mul_nonneg_nonneg; lia|].
  split; apply Z.mul_le_mono_nonneg; lia.
Qed.

(** X2.  For boxes of non-negative width and height the IoU lies between 0
    and 1. *)
Theorem calculate_iou_range (bbox1 bbox2 : BBox) :
  bbox_wf bbox1 → bbox_wf bbox2 →
  (0 <= calculate_iou bbox1 bbox2 <= 1)%Q.
Proof.
  intros Hwf1 Hwf2. unfold calculate_iou.
  destruct (Z.ltb_spec (x_right bbox1 bbox2) (x_left bbox1 bbox2)); [simpl; lra|].
  destruct (Z.ltb_spec (y_bottom bbox1 bbox2) (y_top bbox1 bbox2)); [simpl; lra|].
  simpl. destruct (Z.ltb_spec 0 (union_area bbox1 bbox2)) as [Hu|Hu]; [|lra].
  destruct (intersection_area_bounds bbox1 bbox2) as (Hi0 & Hi1 & Hi2); try done.
  assert (Hle : (intersection_area bbox1 bbox2 <= union_area bbox1 bbox2)%Z)
    by (unfold union_area in *; lia).
  assert (Hupos : (0 < inject_Z (union_area bbox1 bbox2))%Q)
    by (change 0%Q with (inject_Z 0); by rewrite <- Zlt_Qlt).
  unfold py_truediv. split.
  - apply Qle_shift_div_l; [done|]. rewrite Qmult_0_l.
    change 0%Q with (inject_Z 0). by rewrite <- Zle_Qle.
  - apply Qle_shift_div_r; [done|]. rewrite Qmult_1_l. by rewrite <- Zle_Qle.
Qed.

Lemma calculate_iou_range_witness :
  (0 <= calculate_iou (mkBBox 100 150 50 60) (mkBBox 102 152 48 58) <= 1)%Q.
Proof.
  apply (calculate_iou_range (mkBBox 100 150 50 60) (mkBBox 102 152 48 58));
    split; simpl; lia.
Defined.

(** ** apply_nms *)



Lemma nms_loop_compatible (self : EnsembleAggregator) (h : list Detection)
    (fuel : nat) (dets : list loc) :
  StronglySorted (nms_compatible self h) (nms_loop self fuel h dets).
Proof.
  revert dets. induction fuel as [|fuel IH]; intros [|current rest]; simpl;
    try constructor; [apply IH|].
  apply Forall_forall. intros d Hd.
  assert (Hin : d ∈ nms_filter self h current rest)
    by (eapply elem_of_sublist; [exact Hd|apply nms_loop_sublist]).
  by apply nms_filter_elem in Hin as [_ Hk].
Qed.


Lemma nms_keeps_sym (self : EnsembleAggregator) (h : list Detection) (a b : loc) :
  nms_keeps self h a b = nms_keeps self h b a.
Proof.
  unfold nms_keeps, calculate_iou.
  destruct (iou_parts_sym (det_bbox (deref h a)) (det_bbox (deref h b)))
    as (-> & -> & -> & -> & -> & ->).
  by rewrite String.eqb_sym.
Qed.

(** X3.  Among the detections [apply_nms] keeps, no two have the same class
    and an IoU of [nms_threshold] or more, whatever their order. *)
Theorem apply_nms_no_duplicates (self : EnsembleAggregator) (h : list Detection)
    (detections : list loc) (i j : nat) (a b : loc) :
  i ≠ j →
  apply_nms self h detections !! i = Some a →
  apply_nms self h detections !! j = Some b →
  ¬ (det_class (deref h a) = det_class (deref h b)
     ∧ (nms_threshold self
        <= calculate_iou (det_bbox (deref h a)) (det_bbox (deref h b)))%Q).
Proof.
  assert (Hord : ∀ i j a b, i < j →
            apply_nms self h detections !! i = Some a →
            apply_nms self h detections !! j = Some b →
            nms_keeps self h a b = true).
  { rewrite apply_nms_unfold.
    pose proof (nms_loop_compatible self h (length detections)
                  (sorted_desc (fun l => det_confidence (deref h l)) detections))
      as Hs.
    revert Hs. generalize (nms_loop self (length detections) h
                  (sorted_desc (fun l => det_confidence (deref h l)) detections)).
    intros out Hs. induction Hs as [|x out Hout IH Hx]; intros i' j' a' b' Hlt Ha Hb.
    - by rewrite lookup_nil in Ha.
    - destruct j' as [|j']; [lia|]. simpl in Hb. destruct i' as [|i']; simpl in Ha.
      + injection Ha as <-. rewrite Forall_forall in Hx. apply Hx.
        by eapply list_elem_of_lookup_2.
      + eapply IH; [|done..]. lia. }
  intros Hne Ha Hb [Hc Hiou].
  destruct (Nat.lt_total i j) as [Hlt|[->|Hlt]]; [| done |].
  - pose proof (Hord i j a b Hlt Ha Hb) as Hk.
    assert (Hf : nms_keeps self h a b = false)
      by (apply nms_keeps_false_iff; split; [by symmetry|done]).
    congruence.
  - pose proof (Hord j i b a Hlt Hb Ha) as Hk.
    assert (Hf : nms_keeps self h a b = false)
      by (apply nms_keeps_false_iff; split; [by symmetry|done]).
    rewrite nms_keeps_sym in Hf. congruence.
Qed.

Lemma apply_nms_no_duplicates_witness :
  apply_nms default_aggregator nms_store [0; 1; 2] = [0; 2]
  ∧ ¬ (det_class (deref nms_store 0) = det_class (deref nms_store 2)
       ∧ (nms_threshold default_aggregator
          <= calculate_iou (det_bbox (deref nms_store 0%nat))
               (det_bbox (deref nms_store 2%nat)))%Q).
Proof.
  split; [vm_compute; reflexivity|].
  apply (apply_nms_no_duplicates default_aggregator nms_store [0; 1; 2] 0 1 0 2).
  - lia.
  - vm_compute. reflexivity.
  - vm_compute. reflexivity.
Defined.




(** ** weighted_voting and merge_detections *)






(** ** aggregate: provenance, degraded operation, size *)

Lemma tag_all_notin (s : string) (refs : list loc) (h : list Detection) (l : loc) :
  l ∉ refs → deref (tag_all s refs h) l = deref h l.
Proof.
  revert h. induction refs as [|r refs IH]; intros h Hnot; [done|].
  apply not_elem_of_cons in Hnot as [Hne Hnot].
  unfold tag_all in *. simpl. rewrite IH by done.
  rewrite deref_alter. rewrite decide_False; [done|]. intros [-> _]. done.
Qed.

Lemma merged_for_source (self : EnsembleAggregator) (h : list Detection)
    (gpt_results : list loc) (y : loc) (d : Detection) :
  merged_for self h gpt_results y = Some d → det_source d = Some "ensemble"%string.
Proof.
  unfold merged_for.
  destruct (match_of self h (deref h y) gpt_results) as [[[j g]|]|]; [|done..].
  by intros [= <-].
Qed.

Lemma pool_sources (self : EnsembleAggregator) (h : list Detection)
    (yolo_results gpt_results : list loc) (st : AggState) (pool : list loc) :
  refs_valid h yolo_results → refs_valid h gpt_results →
  candidate_pool self h yolo_results gpt_results = Returns (st, pool) →
  (∀ l, l < length h → payload (deref (st_heap st) l) = payload (deref h l))
  ∧ ∀ r, r ∈ pool →
      r < length (st_heap st)
      ∧ (r ∈ gpt_results ∧ det_source (deref (st_heap st) r) = Some "gpt"%string
         ∨ r ∈ yolo_results ∧ (r ∉ gpt_results)
           ∧ det_source (deref (st_heap st) r) = Some "yolo"%string
         ∨ length h ≤ r
           ∧ det_source (deref (st_heap st) r) = Some "ensemble"%string).
Proof.
  intros Hyolo Hgpt Hrun.
  destruct (candidate_pool_spec self h yolo_results gpt_results st pool
              Hyolo Hgpt Hrun) as (Hheap & Hens & _ & _ & Hpool).
  set (h1 := tag_all "yolo" yolo_results h) in *.
  set (h2 := tag_all "gpt" gpt_results h1) in *.
  set (news := omap (merged_for self h gpt_results) yolo_results) in *.
  assert (Hlen1 : length h1 = length h) by apply tag_all_length.
  assert (Hlen2 : length h2 = length h)
    by (unfold h2; by rewrite tag_all_length).
  assert (Hold : ∀ l, l < length h → deref (st_heap st) l = deref h2 l).
  { intros l Hl. rewrite Hheap. apply deref_app_l. lia. }
  assert (Hinput : ∀ r, r < length h → r ∈ yolo_results ∨ r ∈ gpt_results →
            r ∈ gpt_results ∧ det_source (deref (st_heap st) r) = Some "gpt"%string
            ∨ r ∈ yolo_results ∧ (r ∉ gpt_results)
              ∧ det_source (deref (st_heap st) r) = Some "yolo"%string).
  { intros r Hr Hin. rewrite (Hold r Hr).
    destruct (decide (r ∈ gpt_results)) as [Hg|Hg].
    - left. split; [done|]. apply tag_all_source; [done|lia].
    - right. destruct Hin as [Hy|?]; [|done]. split; [done|]. split; [done|].
      unfold h2. rewrite tag_all_notin by done. by apply tag_all_source. }
  split.
  - intros l Hl. rewrite (Hold l Hl). apply tagged_payload.
  - intros r Hr. apply Hpool in Hr.
    unfold refs_valid in *. rewrite Forall_forall in Hyolo, Hgpt.
    destruct Hr as [Hr|[(i & Hi & _)|(j & Hj & _)]].
    + rewrite Hens in Hr. apply elem_of_seq in Hr as [Hlo Hhi].
      split; [rewrite Hheap, length_app; lia|]. right. right. split; [done|].
      replace r with (length h2 + (r - length h)) by lia.
      rewrite Hheap, deref_app_r by lia.
      assert (Hin : news !!! (r - length h) ∈ news)
        by (apply list_elem_of_lookup_total_2; lia).
      apply list_elem_of_omap in Hin as (y & _ & Hy).
      by eapply merged_for_source.
    + apply list_elem_of_lookup_2 in Hi. pose proof (Hyolo r Hi) as Hlt.
      split; [rewrite Hheap, length_app; lia|].
      destruct (Hinput r Hlt (or_introl Hi)) as [?|?]; [by left|right; by left].
    + apply list_elem_of_lookup_2 in Hj. pose proof (Hgpt r Hj) as Hlt.
      split; [rewrite Hheap, length_app; lia|].
      destruct (Hinput r Hlt (or_intror Hj)) as [?|?]; [by left|right; by left].
Qed.

(** X8.  Every detection [aggregate] returns is a live object with a source:
    ["gpt"] for a GPT result, ["yolo"] for a YOLO result that is not also a
    GPT result, ["ensemble"] for an object created by the merge; and the
    call changes nothing but the source of the objects it was given. *)
Theorem aggregate_provenance (self : EnsembleAggregator) (h : list Detection)
    (yolo_results gpt_results : list loc) (h' : list Detection) (out : list loc) :
  refs_valid h yolo_results → refs_valid h gpt_results →
  aggregate self h yolo_results gpt_results = Returns (h', out) →
  (∀ l, l < length h → payload (deref h' l) = payload (deref h l))
  ∧ ∀ r, r ∈ out →
      r < length h'
      ∧ (r ∈ gpt_results ∧ det_source (deref h' r) = Some "gpt"%string
         ∨ r ∈ yolo_results ∧ (r ∉ gpt_results)
           ∧ det_source (deref h' r) = Some "yolo"%string
         ∨ length h ≤ r ∧ det_source (deref h' r) = Some "ensemble"%string).
Proof.
  intros Hyolo Hgpt (st & pool & Hrun & -> & ->)%aggregate_inv.
  destruct (pool_sources self h yolo_results gpt_results st pool Hyolo Hgpt Hrun)
    as [Hpayload Hsrc].
  split; [exact Hpayload|].
  intros r Hr. apply Hsrc. by eapply apply_nms_subseteq.
Qed.

Lemma aggregate_provenance_witness :
  ∃ h', aggregate default_aggregator scenario_store [0; 1] [2; 3]
        = Returns (h', [4; 1])
        ∧ det_source (deref h' 4) = Some "ensemble"%string
        ∧ det_source (deref h' 1) = Some "yolo"%string.
Proof.
  assert (Hrun : ∃ h', aggregate default_aggregator scenario_store [0; 1] [2; 3]
                       = Returns (h', [4; 1]))
    by (eexists; vm_compute; reflexivity).
  destruct Hrun as [h' Hrun]. exists h'. split; [exact Hrun|].
  destruct (aggregate_provenance default_aggregator scenario_store [0; 1] [2; 3]
              h' [4; 1]) as [_ Hsrc].
  - repeat constructor; simpl; lia.
  - repeat constructor; simpl; lia.
  - exact Hrun.
  - split.
    + destruct (Hsrc 4) as [_ [[Hin _]|[(Hin & _)|[_ Hs]]]].
      * apply list_elem_of_here.
      * apply list_elem_of_In in Hin. simpl in Hin.
        destruct Hin as [Hin|[Hin|[]]]; discriminate.
      * apply list_elem_of_In in Hin. simpl in Hin.
        destruct Hin as [Hin|[Hin|[]]]; discriminate.
      * exact Hs.
    + destruct (Hsrc 1) as [_ [[Hin _]|[(_ & _ & Hs)|[Hge _]]]].
      * apply list_elem_of_further, list_elem_of_here.
      * apply list_elem_of_In in Hin. simpl in Hin.
        destruct Hin as [Hin|[Hin|[]]]; discriminate.
      * exact Hs.
      * simpl in Hge. lia.
Defined.

Lemma add_unmatched_none_matched (h : list Detection) (results : list loc)
    (i : nat) (pool : list loc) :
  add_unmatched h ∅ results i pool = pool ++ confident h results.
Proof.
  revert i pool. induction results as [|det rest IH]; intros i pool; simpl.
  - by rewrite app_nil_r.
  - rewrite bool_decide_eq_true_2 by apply not_elem_of_empty.
    rewrite IH. unfold confident. simpl.
    destruct (Qlt_bool retention_threshold (det_confidence (deref h det)));
      [by rewrite <- app_assoc|done].
Qed.

Lemma confident_payload (h h' : list Detection) (results : list loc) :
  (∀ l, payload (deref h' l) = payload (deref h l)) →
  confident h' results = confident h results.
Proof.
  intros Hp. unfold confident. induction results as [|det rest IH]; [done|].
  simpl. destruct (payload_fields _ _ (Hp det)) as (_ & -> & _). by rewrite IH.
Qed.

Lemma match_loop_no_gpt (self : EnsembleAggregator) (yolo_results : list loc)
    (i : nat) (st : AggState) :
  (0 <= iou_threshold self)%Q →
  match_loop self [] yolo_results i st = Returns st.
Proof.
  intros Hthr. revert i. induction yolo_results as [|y rest IH]; intros i; [done|].
  simpl. unfold match_of, best_for. simpl.
  rewrite (proj2 (Qlt_bool_false_iff (iou_threshold self) 0) Hthr). simpl. apply IH.
Qed.

(** X9.  When one detector delivers nothing, [aggregate] returns the
    suppression of the other detector's detections of confidence above 0.7,
    tagged with their source: always for an empty YOLO list, and for an
    empty GPT list when the IoU threshold is not negative. *)
Theorem aggregate_single_detector (self : EnsembleAggregator) (h : list Detection)
    (results : list loc) :
  aggregate self h [] results
  = Returns (tag_all "gpt" results h,
             apply_nms self (tag_all "gpt" results h) (confident h results))
  ∧ ((0 <= iou_threshold self)%Q →
     aggregate self h results []
     = Returns (tag_all "yolo" results h,
                apply_nms self (tag_all "yolo" results h) (confident h results))).
Proof.
  split.
  - unfold aggregate, candidate_pool. simpl.
    rewrite add_unmatched_none_matched. simpl.
    rewrite (confident_payload h (tag_all "gpt" results h)); [done|].
    intros l. apply tag_all_payload.
  - intros Hthr. unfold aggregate, candidate_pool.
    rewrite match_loop_no_gpt by done. simpl.
    rewrite add_unmatched_none_matched. simpl.
    rewrite (confident_payload h (tag_all "yolo" results h)); [done|].
    intros l. apply tag_all_payload.
Qed.

Lemma aggregate_single_detector_witness :
  aggregate default_aggregator scenario_store [0; 1] []
  = Returns (tag_all "yolo" [0; 1] scenario_store, [0; 1]).
Proof.
  destruct (aggregate_single_detector default_aggregator scenario_store [0; 1])
    as [_ Hyolo].
  rewrite Hyolo; [vm_compute; reflexivity|vm_compute; discriminate].
Defined.

Lemma add_unmatched_length (h : list Detection) (matched : gset nat)
    (results : list loc) (i : nat) (pool : list loc) :
  length (add_unmatched h matched results i pool) ≤ length pool + length results.
Proof.
  revert i pool. induction results as [|det rest IH]; intros i pool; simpl; [lia|].
  etransitivity; [apply IH|].
  destruct (bool_decide _); [|lia].
  destruct (Qlt_bool _ _); [rewrite length_app; simpl; lia|lia].
Qed.

Lemma add_unmatched_merged_length {B : Type} (f : loc → option B)
    (h : list Detection) (matched : gset nat) (results : list loc) (i : nat)
    (pool : list loc) :
  (∀ k y, results !! k = Some y → is_Some (f y) → i + k ∈ matched) →
  length (omap f results) + length (add_unmatched h matched results i pool)
  ≤ length pool + length results.
Proof.
  revert i pool. induction results as [|det rest IH]; intros i pool Hm; [simpl; lia|].
  rewrite omap_cons_eq. simpl add_unmatched.
  assert (Hrest : ∀ k y, rest !! k = Some y → is_Some (f y) → S i + k ∈ matched).
  { intros k y Hk Hy. replace (S i + k) with (i + S k) by lia. by apply (Hm (S k) y). }
  destruct (f det) as [b|] eqn:Ef.
  - assert (Hi : i ∈ matched).
    { replace i with (i + 0) by lia. apply (Hm 0 det); [done|]. by rewrite Ef. }
    rewrite bool_decide_eq_false_2 by (intros Hn; by apply Hn).
    specialize (IH (S i) pool Hrest). simpl. lia.
  - etransitivity; [apply (IH (S i)); exact Hrest|].
    destruct (bool_decide _); [|simpl; lia].
    destruct (Qlt_bool _ _); [rewrite length_app; simpl; lia|simpl; lia].
Qed.

Lemma apply_nms_length (self : EnsembleAggregator) (h : list Detection)
    (detections : list loc) :
  length (apply_nms self h detections) ≤ length detections.
Proof.
  rewrite apply_nms_unfold.
  rewrite <- (Permutation_length
                (sorted_desc_perm (fun l => det_confidence (deref h l)) detections))
    at 2.
  apply sublist_length, nms_loop_sublist.
Qed.

Lemma pool_lengths (self : EnsembleAggregator) (h : list Detection)
    (yolo_results gpt_results : list loc) (st : AggState) (pool : list loc) :
  refs_valid h yolo_results → refs_valid h gpt_results →
  candidate_pool self h yolo_results gpt_results = Returns (st, pool) →
  length pool ≤ length yolo_results + length gpt_results
  ∧ length h ≤ length (st_heap st) ≤ length h + length yolo_results.
Proof.
  intros Hyolo Hgpt Hrun.
  destruct (candidate_pool_spec self h yolo_results gpt_results st pool
              Hyolo Hgpt Hrun) as (Hheap & Hens & Hmy & _ & _).
  pose proof (omap_length_le (merged_for self h gpt_results) yolo_results) as Hnews.
  split.
  - unfold candidate_pool in Hrun.
    destruct (match_loop self gpt_results yolo_results 0 _) as [st0|e];
      simpl in Hrun; [|discriminate].
    injection Hrun as -> <-.
    etransitivity; [apply add_unmatched_length|].
    pose proof (add_unmatched_merged_length (merged_for self h gpt_results)
                  (st_heap st) (matched_yolo st) yolo_results 0
                  (ensemble_detections st)) as Hy.
    rewrite Hens, length_seq in Hy. rewrite Hens.
    assert (Hm : ∀ k y, yolo_results !! k = Some y →
                        is_Some (merged_for self h gpt_results y) →
                        0 + k ∈ matched_yolo st).
    { intros k y Hk Hs. apply Hmy. by exists y. }
    specialize (Hy Hm). lia.
  - rewrite Hheap, length_app, !tag_all_length. lia.
Qed.

(** X10.  [aggregate] never returns more detections than the two lists it
    was given hold together, and it creates at most one new object per YOLO
    detection. *)
Theorem aggregate_size (self : EnsembleAggregator) (h : list Detection)
    (yolo_results gpt_results : list loc) (h' : list Detection) (out : list loc) :
  refs_valid h yolo_results → refs_valid h gpt_results →
  aggregate self h yolo_results gpt_results = Returns (h', out) →
  length out ≤ length yolo_results + length gpt_results
  ∧ length h ≤ length h' ≤ length h + length yolo_results.
Proof.
  intros Hyolo Hgpt (st & pool & Hrun & -> & ->)%aggregate_inv.
  destruct (pool_lengths self h yolo_results gpt_results st pool Hyolo Hgpt Hrun)
    as [Hpool Hheap].
  split; [|exact Hheap].
  etransitivity; [apply apply_nms_length|exact Hpool].
Qed.

Lemma aggregate_size_witness :
  ∃ h', aggregate default_aggregator scenario_store [0; 1] [2; 3]
        = Returns (h', [4; 1])
        ∧ length scenario_store ≤ length h' ≤ length scenario_store + 2.
Proof.
  assert (Hrun : ∃ h', aggregate default_aggregator scenario_store [0; 1] [2; 3]
                       = Returns (h', [4; 1]))
    by (eexists; vm_compute; reflexivity).
  destruct Hrun as [h' Hrun]. exists h'. split; [exact Hrun|].
  apply (aggregate_size default_aggregator scenario_store [0; 1] [2; 3] h' [4; 1]).
  - repeat constructor; simpl; lia.
  - repeat constructor; simpl; lia.
  - exact Hrun.
Defined.

(** ** parse_response: what it returns *)

Lemma mapM_Returns {A B : Type} (f : A → outcome B) (l : list A) (k : list B) :
  mapM f l = Returns k ↔ Forall2 (fun x y => f x = Returns y) l k.
Proof.
  revert k. induction l as [|x l IH]; intros k.
  - split; [intros [= <-]; constructor|by inversion 1].
  - change (mapM f (x :: l)) with (y ← f x; k' ← mapM f l; mret (y :: k')).
    split.
    + destruct (f x) as [y|e] eqn:Ef; simpl; [|discriminate].
      destruct (mapM f l) as [k'|e] eqn:Em; simpl; [|discriminate].
      intros [= <-]. constructor; [done|]. by apply IH.
    + inversion 1 as [|? y ? k' Hy Hk]; subst. apply IH in Hk.
      by rewrite Hy, Hk.
Qed.

Lemma accepted_known (det : json) (class_name : string)
    (fields : list (string * json)) :
  accepted det = Some (class_name, fields) →
  det = JObj fields ∧ class_name ∈ DEFECT_CLASSES
  ∧ dict_get fields "class" = Some (JStr class_name).
Proof.
  destruct det as [| | | | | |fs]; simpl; try discriminate.
  destruct (_ || _); [discriminate|].
  destruct (dict_get fs "class") as [[| | | |s| |]|] eqn:Ec; simpl; try discriminate.
  destruct (bool_decide (s ∈ DEFECT_CLASSES)) eqn:Ek; [|discriminate].
  intros [= <- <-]. apply bool_decide_eq_true in Ek. done.
Qed.

Lemma format_detection_parsed (float_of_str : string → option Q)
    (int_of_str : string → option Z) (class_name : string)
    (fields : list (string * json)) (d : Detection) :
  format_detection float_of_str int_of_str class_name fields = Returns d →
  det_class d = class_name ∧ det_source d = None.
Proof.
  unfold format_detection.
  destruct (py_float _ _) as [c|]; simpl; [|discriminate].
  destruct (bbox_field _ _ "x") as [x|]; simpl; [|discriminate].
  destruct (bbox_field _ _ "y") as [y|]; simpl; [|discriminate].
  destruct (bbox_field _ _ "width") as [w|]; simpl; [|discriminate].
  destruct (bbox_field _ _ "height") as [hh|]; simpl; [|discriminate].
  by intros [= <-].
Qed.

(** X11.  Whatever the response, every detection [parse_response] returns
    has one of the 12 known classes and no source yet, and for a response
    that decodes to an array there are at most as many detections as array
    elements. *)
Theorem parse_response_sound (json_loads : string → option json)
    (float_of_str : string → option Q) (int_of_str : string → option Z)
    (response_text : string) :
  ∃ detections,
    parse_response json_loads float_of_str int_of_str response_text
    = Returns detections
    ∧ Forall parsed_detection detections
    ∧ ∀ items, json_loads (strip_fences response_text) = Some (JArr items) →
               length detections ≤ length items.
Proof.
  assert (Hloop : ∀ items detections,
            parse_loop float_of_str int_of_str items [] = Returns detections →
            Forall parsed_detection detections ∧ length detections ≤ length items).
  { intros items detections. rewrite parse_loop_spec.
    destruct (mapM _ _) as [formatted|e] eqn:Em; simpl; [|discriminate].
    intros [= <-]. apply mapM_Returns in Em. split.
    - apply Forall_forall. intros d Hd.
      apply list_elem_of_lookup_1 in Hd as [i Hi].
      destruct (Forall2_lookup_r _ _ _ _ _ Em Hi) as ([c fields] & Hcf & Hfmt).
      apply list_elem_of_lookup_2, list_elem_of_omap in Hcf as (det & _ & Hacc).
      apply accepted_known in Hacc as (_ & Hknown & _).
      apply format_detection_parsed in Hfmt as [Hc Hsrc].
      split; [by rewrite Hc|done].
    - rewrite <- (Forall2_length _ _ _ Em). apply omap_length_le. }
  unfold parse_response, parse_response_body.
  destruct (json_loads (strip_fences response_text)) as [v|] eqn:Hload;
    [|exists []; split; [done|]; split; [constructor|done]].
  destruct (py_iter v) as [its|e] eqn:Hiter; simpl;
    [|exists []; split; [done|]; split; [constructor|]; intros items [= ->]; done].
  destruct (parse_loop float_of_str int_of_str its []) as [ds|e] eqn:Hl.
  - destruct (Hloop its ds Hl) as [Hall Hlen]. exists ds. split; [done|].
    split; [done|]. intros items [= ->]. simpl in Hiter. by injection Hiter as ->.
  - exists []. split; [done|]. split; [constructor|]. intros; simpl; lia.
Qed.

Lemma parse_response_sound_witness :
  ∃ detections,
    parse_response (fun _ => Some (JArr mixed_batch)) (fun _ => None)
      (fun _ => None) "[]" = Returns detections
    ∧ Forall parsed_detection detections
    ∧ length detections ≤ length mixed_batch.
Proof.
  destruct (parse_response_sound (fun _ => Some (JArr mixed_batch)) (fun _ => None)
              (fun _ => None) "[]") as (detections & Hrun & Hall & Hlen).
  exists detections. split; [exact Hrun|]. split; [exact Hall|].
  apply Hlen. reflexivity.
Defined.

Lemma accepted_prompt_format (d : Detection) :
  det_class d ∈ DEFECT_CLASSES →
  ∃ fields, prompt_format d = JObj fields
            ∧ accepted (prompt_format d) = Some (det_class d, fields).
Proof.
  intros Hc. eexists. split; [reflexivity|].
  unfold prompt_format, accepted. simpl.
  by rewrite bool_decide_eq_true_2.
Qed.

Lemma format_prompt_format (float_of_str : string → option Q)
    (int_of_str : string → option Z) (d : Detection) (fields : list (string * json)) :
  det_source d = None →
  prompt_format d = JObj fields →
  format_detection float_of_str int_of_str (det_class d) fields = Returns d.
Proof.
  intros Hsrc [= <-]. destruct d as [c conf [x y w hh] src descr].
  simpl in *. subst src. by destruct descr.
Qed.

(** X12.  Decoding what the prompt asks for gives the detections back: a
    response that decodes to the array of the prompt's objects for a list of
    detections with known classes is parsed into exactly that list. *)
Theorem parse_response_prompt_format (json_loads : string → option json)
    (float_of_str : string → option Q) (int_of_str : string → option Z)
    (response_text : string) (detections : list Detection) :
  Forall parsed_detection detections →
  json_loads (strip_fences response_text)
  = Some (JArr (prompt_format <$> detections)) →
  parse_response json_loads float_of_str int_of_str response_text
  = Returns detections.
Proof.
  intros Hall Hload. rewrite (parse_response_array _ _ _ _ _ Hload).
  assert (Hm : mapM (format_accepted float_of_str int_of_str)
                 (omap accepted (prompt_format <$> detections))
               = Returns detections).
  { clear Hload. induction Hall as [|d ds [Hclass Hsrc] _ IH]; [done|].
    destruct (accepted_prompt_format d Hclass) as (fields & Hfields & Hacc).
    rewrite fmap_cons, omap_cons_eq, Hacc.
    change (mapM ?f (?x :: ?l)) with (y ← f x; k ← mapM f l; mret (y :: k)).
    rewrite IH. unfold format_accepted. simpl.
    by rewrite (format_prompt_format _ _ d fields Hsrc Hfields). }
  by rewrite Hm.
Qed.

Lemma parse_response_prompt_format_witness :
  parse_response
    (fun _ => Some (JArr (prompt_format
                            <$> [detection "crack" (75 # 100) 200 250 40 50])))
    (fun _ => None) (fun _ => None) "[]"
  = Returns [detection "crack" (75 # 100) 200 250 40 50].
Proof.
  apply (parse_response_prompt_format _ (fun _ => None) (fun _ => None) "[]"
           [detection "crack" (75 # 100) 200 250 40 50]).
  - constructor; [|constructor]. split; [|reflexivity].
    apply list_elem_of_In. simpl. tauto.
  - reflexivity.
Defined.

(** ** strip_fences *)

Lemma sapp_cons (c : ascii) (a b : string) :
  (String c a +:+ b)%string = String c (a +:+ b).
Proof. reflexivity. Qed.

Lemma sapp_nil_l (s : string) : ("" +:+ s)%string = s.
Proof. reflexivity. Qed.

Lemma sapp_nil_r (s : string) : (s +:+ "")%string = s.
Proof. induction s as [|c s IH]; [done|]. by rewrite sapp_cons, IH. Qed.

Lemma sapp_assoc (a b c : string) :
  ((a +:+ b) +:+ c)%string = (a +:+ (b +:+ c))%string.
Proof. induction a as [|x a IH]; [done|]. by rewrite !sapp_cons, IH. Qed.

Lemma slength_app (a b : string) :
  String.length (a +:+ b) = String.length a + String.length b.
Proof. induction a as [|x a IH]; [done|]. rewrite sapp_cons. simpl. by rewrite IH. Qed.

Lemma srev_app_spec (s1 s2 : string) :
  String.rev_app s1 s2 = (String.rev s1 +:+ s2)%string.
Proof.
  revert s2. induction s1 as [|c s1 IH]; intros s2; [done|].
  unfold String.rev. simpl. rewrite (IH (String c "")), IH.
  by rewrite sapp_assoc.
Qed.

Lemma srev_cons (c : ascii) (s : string) :
  String.rev (String c s) = (String.rev s +:+ String c "")%string.
Proof. unfold String.rev at 1. simpl. apply srev_app_spec. Qed.

Lemma srev_app (a b : string) :
  String.rev (a +:+ b) = (String.rev b +:+ String.rev a)%string.
Proof.
  induction a as [|c a IH].
  - by rewrite sapp_nil_l, sapp_nil_r.
  - by rewrite sapp_cons, !srev_cons, IH, sapp_assoc.
Qed.

Lemma srev_involutive (s : string) : String.rev (String.rev s) = s.
Proof.
  induction s as [|c s IH]; [done|].
  by rewrite srev_cons, srev_app, IH.
Qed.

Lemma substring_prefix (a b : string) :
  substring 0 (String.length a) (a +:+ b) = a.
Proof.
  induction a as [|c a IH]; [by destruct b|].
  rewrite sapp_cons. simpl. by rewrite IH.
Qed.

Lemma drop_back_app (a b : string) :
  drop_back (String.length b) (a +:+ b) = a.
Proof.
  unfold drop_back. rewrite slength_app.
  replace (String.length a + String.length b - String.length b)
    with (String.length a) by lia.
  apply substring_prefix.
Qed.

Lemma drop_front_app (a b : string) :
  drop_front (String.length a) (a +:+ b) = b.
Proof.
  unfold drop_front. rewrite slength_app.
  replace (String.length a + String.length b - String.length a)
    with (String.length b) by lia.
  induction a as [|c a IH].
  - rewrite sapp_nil_l. simpl.
    pose proof (substring_prefix b "") as H. by rewrite sapp_nil_r in H.
  - rewrite sapp_cons. simpl. apply IH.
Qed.

Lemma startswith_app (a b : string) : startswith (a +:+ b) a = true.
Proof. unfold startswith. apply prefix_correct, substring_prefix. Qed.

Lemma endswith_app (a b : string) : endswith (a +:+ b) b = true.
Proof.
  unfold endswith. rewrite srev_app. apply prefix_correct, substring_prefix.
Qed.

Lemma lstrip_app (a b : string) :
  lstrip (a +:+ b)
  = match lstrip a with
    | EmptyString => lstrip b
    | String c s => (String c s +:+ b)%string
    end.
Proof.
  induction a as [|c a IH]; [done|].
  rewrite sapp_cons. simpl. destruct (py_isspace c); [apply IH|done].
Qed.

Lemma strip_trailing_newline (s : string) : strip (s +:+ newline) = strip s.
Proof.
  unfold strip. rewrite lstrip_app.
  destruct (lstrip s) as [|c u] eqn:E; [done|].
  by rewrite srev_app.
Qed.

Lemma strip_backticks (s : string) :
  strip ("`" +:+ s +:+ "`") = ("`" +:+ s +:+ "`")%string.
Proof.
  unfold strip. rewrite sapp_cons, sapp_nil_l. simpl lstrip.
  rewrite srev_cons, srev_app, sapp_assoc.
  change (String.rev "`") with "`"%string.
  rewrite (sapp_cons "`" "" (String.rev s +:+ "`")), sapp_nil_l. simpl lstrip.
  rewrite srev_cons, srev_app, srev_involutive.
  change (String.rev "`") with "`"%string.
  by rewrite sapp_assoc.
Qed.

Lemma strip_leading_newline (s : string) : strip (newline +:+ s) = strip s.
Proof. reflexivity. Qed.

Lemma strip_fences_tail (body : string) :
  strip (if endswith (newline +:+ body +:+ newline +:+ "```") "```"
         then drop_back 3 (newline +:+ body +:+ newline +:+ "```")
         else (newline +:+ body +:+ newline +:+ "```")%string)
  = strip body.
Proof.
  assert (Ht : (newline +:+ body +:+ newline +:+ "```")%string
               = ((newline +:+ body +:+ newline) +:+ "```")%string)
    by by rewrite !sapp_assoc.
  rewrite Ht, endswith_app.
  change 3 with (String.length "```"). rewrite drop_back_app.
  rewrite <- sapp_assoc, strip_trailing_newline. apply strip_leading_newline.
Qed.

(** X13.  A response wrapped in a markdown code fence, with or without the
    [json] tag, is reduced to its stripped body. *)
Theorem strip_fences_fenced (body : string) :
  strip_fences ("```json" +:+ newline +:+ body +:+ newline +:+ "```") = strip body
  ∧ strip_fences ("```" +:+ newline +:+ body +:+ newline +:+ "```") = strip body.
Proof.
  split.
  - assert (Hs : strip ("```json" +:+ newline +:+ body +:+ newline +:+ "```")
                 = ("```json" +:+ newline +:+ body +:+ newline +:+ "```")%string).
    { assert (Ht : ("```json" +:+ newline +:+ body +:+ newline +:+ "```")%string
                   = ("`" +:+ ("``json" +:+ newline +:+ body +:+ newline +:+ "``")
                      +:+ "`")%string)
        by by rewrite !sapp_assoc.
      rewrite Ht. apply strip_backticks. }
    unfold strip_fences. rewrite Hs, startswith_app.
    assert (Hd : drop_front 7 ("```json" +:+ newline +:+ body +:+ newline +:+ "```")
                 = (newline +:+ body +:+ newline +:+ "```")%string)
      by apply (drop_front_app "```json").
    rewrite Hd. apply strip_fences_tail.
  - assert (Hs : strip ("```" +:+ newline +:+ body +:+ newline +:+ "```")
                 = ("```" +:+ newline +:+ body +:+ newline +:+ "```")%string).
    { assert (Ht : ("```" +:+ newline +:+ body +:+ newline +:+ "```")%string
                   = ("`" +:+ ("``" +:+ newline +:+ body +:+ newline +:+ "``")
                      +:+ "`")%string)
        by by rewrite !sapp_assoc.
      rewrite Ht. apply strip_backticks. }
    unfold strip_fences. rewrite Hs.
    assert (Hj : startswith ("```" +:+ newline +:+ body +:+ newline +:+ "```")
                   "```json" = false) by reflexivity.
    rewrite Hj, startswith_app.
    assert (Hd : drop_front 3 ("```" +:+ newline +:+ body +:+ newline +:+ "```")
                 = (newline +:+ body +:+ newline +:+ "```")%string)
      by apply (drop_front_app "```").
    rewrite Hd. apply strip_fences_tail.
Qed.

Lemma lstrip_head (t : string) (c : ascii) (s : string) :
  lstrip t = String c s → py_isspace c = false.
Proof.
  induction t as [|d t IH]; simpl; [discriminate|].
  destruct (py_isspace d) eqn:E; [done|]. by intros [= <- _].
Qed.

Lemma lstrip_fixed (c : ascii) (s : string) :
  py_isspace c = false → lstrip (String c s) = String c s.
Proof. intros E. simpl. by rewrite E. Qed.

Lemma strip_idempotent (t : string) : strip (strip t) = strip t.
Proof.
  unfold strip.
  assert (Hl : lstrip (String.rev (lstrip (String.rev (lstrip t))))
               = String.rev (lstrip (String.rev (lstrip t)))).
  { destruct (lstrip t) as [|c u] eqn:Eu; [done|].
    apply lstrip_head in Eu. rewrite srev_cons, lstrip_app.
    destruct (lstrip (String.rev u)) as [|d r].
    - simpl. rewrite Eu. by apply lstrip_fixed.
    - rewrite srev_app. change (String.rev (String c "")) with (String c "").
      rewrite sapp_cons, sapp_nil_l. by apply lstrip_fixed. }
  rewrite Hl, srev_involutive.
  destruct (lstrip (String.rev (lstrip t))) as [|d r] eqn:Er; [done|].
  apply lstrip_head in Er. by rewrite lstrip_fixed.
Qed.

Lemma prefix_app_true (a b s : string) :
  String.prefix (a +:+ b) s = true → String.prefix a s = true.
Proof.
  revert s. induction a as [|c a IH]; intros s.
  - by destruct s.
  - rewrite sapp_cons. destruct s as [|d s]; simpl; [done|].
    destruct (ascii_dec c d); [apply IH|done].
Qed.

(** X14.  A response that, once stripped, neither starts nor ends with a
    code fence passes through [strip_fences] as its stripped text. *)
Theorem strip_fences_plain (response_text : string) :
  startswith (strip response_text) "```" = false →
  endswith (strip response_text) "```" = false →
  strip_fences response_text = strip response_text.
Proof.
  intros Hstart Hend. unfold strip_fences.
  assert (Hj : startswith (strip response_text) "```json" = false).
  { destruct (startswith (strip response_text) "```json") eqn:E; [|done].
    unfold startswith in *. apply (prefix_app_true "```" "json") in E. congruence. }
  rewrite Hj, Hstart, Hend. apply strip_idempotent.
Qed.

Lemma strip_fences_plain_witness :
  strip_fences "  [1, 2]  " = "[1, 2]"%string.
Proof.
  rewrite (strip_fences_plain "  [1, 2]  "); reflexivity.
Defined.

(** ** analyze_image: retries and waits *)

Lemma backoff_S (k : nat) : backoff (S k) = backoff k ++ [(2 ^ Z.of_nat k)%Z].
Proof. unfold backoff. by rewrite seq_S, fmap_app. Qed.

Lemma backoff_total (k : nat) :
  foldr Z.add 0%Z (backoff k) = (2 ^ Z.of_nat k - 1)%Z.
Proof.
  induction k as [|k IH]; [done|].
  rewrite backoff_S, foldr_app. simpl.
  assert (Hshift : ∀ (l : list Z) (a : Z),
            foldr Z.add a l = (foldr Z.add 0 l + a)%Z).
  { induction l as [|x l IHl]; intros a; simpl; [lia|]. rewrite IHl. lia. }
  rewrite Hshift, IH. rewrite Nat2Z.inj_succ, Z.pow_succ_r by lia. lia.
Qed.

Section AnalyzeImageFacts.

Variable json_loads : string → option json.
Variable float_of_str : string → option Q.
Variable int_of_str : string → option Z.
Variable api_call : nat → outcome string.
Variable self : GPTVisionClient.

Lemma analyze_image_from (fuel first k : nat) (detections : list Detection) :
  first + k ≤ Z.to_nat (max_retries self) →
  k ≤ fuel →
  (∀ i, first ≤ i < first + k →
        ∃ e, attempt json_loads float_of_str int_of_str api_call self i = Raises e) →
  attempt json_loads float_of_str int_of_str api_call self (first + k)
  = Returns detections →
  analyze_image json_loads float_of_str int_of_str api_call self fuel first
  = (Returns detections, (fun i => 2 ^ Z.of_nat i)%Z <$> seq first k).
Proof.
  revert first k. induction fuel as [|fuel IH]; intros first k Hmax Hfuel Hfail Hok.
  - assert (k = 0) as -> by lia. rewrite Nat.add_0_r in Hok. simpl. by rewrite Hok.
  - destruct k as [|k].
    + rewrite Nat.add_0_r in Hok. simpl. by rewrite Hok.
    + destruct (Hfail first) as [e He]; [lia|]. simpl. rewrite He.
      destruct (Z.ltb_spec (Z.of_nat first) (max_retries self)); [|lia].
      rewrite (IH (S first) k); [done|lia|lia| |].
      * intros i Hi. apply Hfail. lia.
      * by replace (S first + k) with (first + S k) by lia.
Qed.

Lemma analyze_image_exhausted (fuel first : nat) :
  (Z.of_nat first <= Z.max 0 (max_retries self))%Z →
  first + fuel = Z.to_nat (max_retries self) →
  (∀ i, first ≤ i ≤ Z.to_nat (max_retries self) →
        ∃ e, attempt json_loads float_of_str int_of_str api_call self i = Raises e) →
  analyze_image json_loads float_of_str int_of_str api_call self fuel first
  = (Raises Exception, (fun i => 2 ^ Z.of_nat i)%Z <$> seq first fuel).
Proof.
  revert first. induction fuel as [|fuel IH]; intros first Hmax Hfuel Hfail.
  - destruct (Hfail first) as [e He]; [lia|]. simpl. rewrite He.
    destruct (Z.ltb_spec (Z.of_nat first) (max_retries self)); [lia|done].
  - destruct (Hfail first) as [e He]; [lia|]. simpl. rewrite He.
    destruct (Z.ltb_spec (Z.of_nat first) (max_retries self)); [|lia].
    rewrite (IH (S first)); [done|lia|lia|].
    intros i Hi. apply Hfail. lia.
Qed.

(** X15.  When the first [k] attempts of [analyze_image] fail and the next
    one succeeds, with [k] at most [max_retries], the call returns the parse
    of that response after waiting 1, 2, 4, ... seconds, [2^k - 1] in all. *)
Theorem analyze_image_retries (k : nat) (detections : list Detection) :
  k ≤ Z.to_nat (max_retries self) →
  (∀ i, i < k →
        ∃ e, attempt json_loads float_of_str int_of_str api_call self i = Raises e) →
  attempt json_loads float_of_str int_of_str api_call self k = Returns detections →
  analyze_image_call json_loads float_of_str int_of_str api_call self
  = (Returns detections, backoff k)
  ∧ foldr Z.add 0%Z (backoff k) = (2 ^ Z.of_nat k - 1)%Z
  ∧ analyze_with_timeout json_loads float_of_str int_of_str api_call self
    = (detections, backoff k).
Proof.
  intros Hk Hfail Hok.
  assert (Hcall : analyze_image_call json_loads float_of_str int_of_str api_call self
                  = (Returns detections, backoff k)).
  { unfold analyze_image_call, backoff.
    apply (analyze_image_from _ 0 k); [simpl; lia|lia| |done].
    intros i Hi. apply Hfail. lia. }
  split; [done|]. split; [apply backoff_total|].
  unfold analyze_with_timeout. by rewrite Hcall.
Qed.

(** X16.  When every attempt fails, as it does without an API key,
    [analyze_image] raises only after [max_retries] waits of 1, 2, 4, ...
    seconds, and [analyze_with_timeout] turns that into an empty list. *)
Theorem analyze_image_gives_up :
  (∀ i, i ≤ Z.to_nat (max_retries self) →
        ∃ e, attempt json_loads float_of_str int_of_str api_call self i = Raises e) →
  analyze_image_call json_loads float_of_str int_of_str api_call self
  = (Raises Exception, backoff (Z.to_nat (max_retries self)))
  ∧ analyze_with_timeout json_loads float_of_str int_of_str api_call self
    = ([], backoff (Z.to_nat (max_retries self)))
  ∧ length (backoff (Z.to_nat (max_retries self))) = Z.to_nat (max_retries self).
Proof.
  intros Hfail.
  assert (Hcall : analyze_image_call json_loads float_of_str int_of_str api_call self
                  = (Raises Exception, backoff (Z.to_nat (max_retries self)))).
  { unfold analyze_image_call, backoff.
    apply (analyze_image_exhausted _ 0); [simpl; lia|done|].
    intros i Hi. apply Hfail. lia. }
  split; [done|]. split.
  - unfold analyze_with_timeout. by rewrite Hcall.
  - unfold backoff. by rewrite length_fmap, length_seq.
Qed.

Lemma attempt_unconfigured (i : nat) :
  client_configured self = false →
  attempt json_loads float_of_str int_of_str api_call self i = Raises Exception.
Proof. intros E. unfold attempt. by rewrite E. Qed.

End AnalyzeImageFacts.

Lemma analyze_image_retries_witness :
  analyze_image_call (fun _ => Some (JArr clean_batch)) (fun _ => None) (fun _ => None)
    (fun i => if i <? 2 then Raises Exception else Returns "[]"%string)
    default_client
  = (Returns [mkDetection "crack" (75 # 100) (mkBBox 200 250 40 50) None None],
     [1; 2]%Z).
Proof.
  apply (analyze_image_retries (fun _ => Some (JArr clean_batch)) (fun _ => None)
           (fun _ => None)
           (fun i => if i <? 2 then Raises Exception else Returns "[]"%string)
           default_client 2).
  - simpl. lia.
  - intros i Hi. exists Exception.
    destruct i as [|[|i]]; [reflexivity|reflexivity|lia].
  - vm_compute. reflexivity.
Defined.

Lemma analyze_image_gives_up_witness :
  analyze_with_timeout (fun _ => None) (fun _ => None) (fun _ => None)
    (fun _ => Returns "[]"%string) (mkClient false 3)
  = ([], [1; 2; 4]%Z).
Proof.
  apply (analyze_image_gives_up (fun _ => None) (fun _ => None) (fun _ => None)
           (fun _ => Returns "[]"%string) (mkClient false 3)).
  intros i _. exists Exception. reflexivity.
Defined.

(** ** resize_for_yolo and postprocess *)

Lemma py_int_of_float_floor (q : Q) : (0 <= q)%Q → py_int_of_float q = Qfloor q.
Proof.
  intros Hq. unfold py_int_of_float, Qfloor. destruct q as [n d]. simpl.
  apply Z.quot_div_nonneg; [|lia]. unfold Qle in Hq. simpl in Hq. lia.
Qed.

Lemma py_int_of_float_nonneg (q : Q) : (0 <= q)%Q → (0 <= py_int_of_float q)%Z.
Proof.
  intros Hq. rewrite py_int_of_float_floor by done.
  rewrite <- (Qfloor_Z 0). by apply Qfloor_resp_le.
Qed.






(** X18.  A box whose corners are in order gets a width and a height that
    are not negative, and a class index below 12 that the model's own table
    does not cover gets one of the 12 class names of the GPT client. *)
Theorem postprocess_box_wf (names : option (list string)) (x1 y1 x2 y2 : Q)
    (confidence : Q) (class_idx : nat) :
  let d := postprocess_box names x1 y1 x2 y2 confidence class_idx in
  ((x1 <= x2)%Q → (y1 <= y2)%Q → bbox_wf (det_bbox d))
  ∧ (class_idx < 12 →
     match names with Some table => length table ≤ class_idx | None => True end →
     det_class d ∈ DEFECT_CLASSES)
  ∧ det_source d = None.
Proof.
  intros d. split; [|split; [|done]].
  - intros Hx Hy. split; simpl; apply py_int_of_float_nonneg; lra.
  - intros Hidx Hnames.
    assert (Hfb : CLASS_NAMES !!! class_idx ∈ DEFECT_CLASSES).
    { change DEFECT_CLASSES with CLASS_NAMES.
      apply list_elem_of_lookup_total_2. simpl. lia. }
    unfold d, postprocess_box. cbn [det_class]. unfold class_name_of.
    assert (Hlt : (class_idx <? length CLASS_NAMES) = true)
      by (apply Nat.ltb_lt; simpl; lia).
    rewrite Hlt. destruct names as [table|]; [|done].
    by rewrite (proj2 (Nat.ltb_ge class_idx (length table)) Hnames).
Qed.

Lemma postprocess_box_wf_witness :
  bbox_wf (det_bbox (postprocess_box None (1003 # 10) (1507 # 10) (1509 # 10)
                       (2102 # 10) (85 # 100) 0))
  ∧ det_class (postprocess_box None (1003 # 10) (1507 # 10) (1509 # 10)
                 (2102 # 10) (85 # 100) 0) ∈ DEFECT_CLASSES.
Proof.
  destruct (postprocess_box_wf None (1003 # 10) (1507 # 10) (1509 # 10)
              (2102 # 10) (85 # 100) 0) as (Hbox & Hclass & _).
  split.
  - apply Hbox; vm_compute; discriminate.
  - apply Hclass; [lia|exact I].
Defined.

(** ** detect_defects: failures of a detector stay inside *)

Lemma refs_valid_seq (h : list Detection) (start len : nat) :
  start + len ≤ length h → refs_valid h (seq start len).
Proof.
  intros Hlen. apply Forall_forall. intros l Hl%elem_of_seq. simpl. lia.
Qed.

(** X19.  Once the image is preprocessed the handler answers with success
    whatever the two detectors do: a detector that raises counts as an empty
    list, the defects are never more than the two detectors found together,
    each of them carries a source, and when both detectors fail the list of
    defects is empty. *)
Theorem detect_defects_isolates_detectors (Preprocessed : Type)
    (preprocess : string → outcome Preprocessed)
    (yolo_detect gpt_detect : Preprocessed → outcome (list Detection))
    (yolo_weight gpt_weight : Q) (image_url : string)
    (preprocess_result : Preprocessed) :
  image_url ≠ EmptyString →
  preprocess image_url = Returns preprocess_result →
  ∃ defects,
    detect_defects Preprocessed preprocess yolo_detect gpt_detect
      (service_aggregator yolo_weight gpt_weight) (Some (Some image_url))
    = Success defects
        (length (run_detector (yolo_detect preprocess_result)))
        (length (run_detector (gpt_detect preprocess_result)))
        (length defects)
    ∧ length defects
      ≤ length (run_detector (yolo_detect preprocess_result))
        + length (run_detector (gpt_detect preprocess_result))
    ∧ Forall (fun d => det_source d = Some "yolo"%string
                       ∨ det_source d = Some "gpt"%string
                       ∨ det_source d = Some "ensemble"%string) defects
    ∧ ((∀ detections, yolo_detect preprocess_result ≠ Returns detections) →
       (∀ detections, gpt_detect preprocess_result ≠ Returns detections) →
       defects = []).
Proof.
  intros Hurl Hpre.
  set (self := service_aggregator yolo_weight gpt_weight).
  set (ys := run_detector (yolo_detect preprocess_result)).
  set (gs := run_detector (gpt_detect preprocess_result)).
  assert (Hy : refs_valid (ys ++ gs) (seq 0 (length ys)))
    by (apply refs_valid_seq; rewrite length_app; lia).
  assert (Hg : refs_valid (ys ++ gs) (seq (length ys) (length gs)))
    by (apply refs_valid_seq; rewrite length_app; lia).
  destruct (aggregate_returns self (ys ++ gs) (seq 0 (length ys))
              (seq (length ys) (length gs))) as (st & pool & Hpool & Hagg);
    [vm_compute; discriminate|].
  set (out := apply_nms self (st_heap st) pool) in *.
  exists (deref (st_heap st) <$> out).
  assert (Hrun : detect_defects Preprocessed preprocess yolo_detect gpt_detect self
                   (Some (Some image_url))
                 = Success (deref (st_heap st) <$> out) (length ys) (length gs)
                     (length (deref (st_heap st) <$> out))).
  { unfold detect_defects. destruct image_url as [|c s]; [done|].
    rewrite Hpre. unfold run_pipeline. fold ys gs. rewrite Hagg.
    by rewrite length_fmap. }
  split; [exact Hrun|].
  destruct (pool_lengths self _ _ _ _ _ Hy Hg Hpool) as [Hsize _].
  destruct (pool_sources self _ _ _ _ _ Hy Hg Hpool) as [_ Hsrc].
  rewrite !length_seq in Hsize.
  pose proof (apply_nms_length self (st_heap st) pool) as Hout. fold out in Hout.
  assert (Hsize' : length out ≤ length ys + length gs) by lia.
  split; [by rewrite length_fmap|]. split.
  - apply Forall_fmap, Forall_forall. intros r Hr. simpl.
    apply apply_nms_subseteq in Hr.
    destruct (Hsrc r Hr) as [_ [[_ ?]|[(_ & _ & ?)|[_ ?]]]]; tauto.
  - intros Hyf Hgf.
    assert (Hys : ys = []).
    { unfold ys. destruct (yolo_detect preprocess_result) as [d|e]; [|done].
      by destruct (Hyf d). }
    assert (Hgs : gs = []).
    { unfold gs. destruct (gpt_detect preprocess_result) as [d|e]; [|done].
      by destruct (Hgf d). }
    rewrite Hys, Hgs in Hsize'. simpl in Hsize'.
    destruct out; [done|simpl in Hsize'; lia].
Qed.

Lemma detect_defects_isolates_detectors_witness :
  ∃ defects,
    detect_defects unit (fun _ => Returns tt)
      (fun _ => Raises Exception)
      (fun _ => Returns [detection "crack" (75 # 100) 200 200 40 40])
      (service_aggregator (6 # 10) (4 # 10)) (Some (Some "s3://image"%string))
    = Success defects 0 1 (length defects)
    ∧ length defects ≤ 1.
Proof.
  destruct (detect_defects_isolates_detectors unit (fun _ => Returns tt)
              (fun _ => Raises Exception)
              (fun _ => Returns [detection "crack" (75 # 100) 200 200 40 40])
              (6 # 10) (4 # 10) "s3://image" tt) as (defects & Hrun & Hlen & _).
  - discriminate.
  - reflexivity.
  - exists defects. split; [exact Hrun|exact Hlen].
Defined.



(** ** preprocess *)

Lemma validate_dimensions_cases (self : ImagePreprocessor) (height width : Z) :
  validate_dimensions self height width = Returns true
  ∧ dimensions_in_range self height width
  ∨ validate_dimensions self height width = Raises ValueError
    ∧ ¬ dimensions_in_range self height width.
Proof.
  unfold validate_dimensions, dimensions_in_range.
  destruct (Z.ltb_spec height (min_size self)), (Z.ltb_spec width (min_size self)),
    (Z.ltb_spec (max_size self) height), (Z.ltb_spec (max_size self) width);
    simpl; (left; split; [reflexivity|lia]) || (right; split; [reflexivity|lia]).
Qed.

Lemma quality_score_bounds (gray : list Z) (laplacian : list Q) :
  valid_gray gray → (0 <= calculate_quality_score gray laplacian <= 100)%Q.
Proof.
  intros [Hne Hpix]. unfold calculate_quality_score.
  pose proof (sharpness_score_range (np_var laplacian) (np_var_nonneg laplacian))
    as Hs.
  assert (Hb : (0 <= brightness_score (np_mean (map inject_Z gray)) <= 50)%Q).
  { apply brightness_score_range, np_mean_bounds.
    - destruct gray; [done|discriminate].
    - apply Forall_fmap. eapply Forall_impl; [exact Hpix|].
      intros p [Hp0 Hp255]. simpl. split.
      + change 0%Q with (inject_Z 0). by rewrite <- Zle_Qle.
      + change 255%Q with (inject_Z 255). by rewrite <- Zle_Qle. }
  lra.
Qed.

(** X21.  [preprocess] raises nothing but [ValueError]; it raises when the
    image does not load or its sides are outside the configured range; and
    when it returns, the result holds the loaded image, its width and height
    in that order and within the range, and a quality score between 0 and
    100. *)
Theorem preprocess_result_valid (Image : Type) (shape : Image → Z * Z)
    (load_image_from_url : string → outcome Image)
    (gray_of : Image → list Z) (laplacian_of : Image → list Q)
    (normalize_brightness_contrast apply_adaptive_filtering resize_image
       : Image → outcome Image)
    (self : ImagePreprocessor) (image_url : string) :
  (∀ image, valid_gray (gray_of image)) →
  let run := preprocess Image shape load_image_from_url gray_of laplacian_of
               normalize_brightness_contrast apply_adaptive_filtering
               resize_image self image_url in
  (∀ e, run = Raises e → e = ValueError)
  ∧ ((∀ image, load_image_from_url image_url ≠ Returns image) →
     run = Raises ValueError)
  ∧ (∀ image, load_image_from_url image_url = Returns image →
       ¬ dimensions_in_range self (fst (shape image)) (snd (shape image)) →
       run = Raises ValueError)
  ∧ (∀ result, run = Returns result →
       load_image_from_url image_url = Returns (original result)
       ∧ dimensions result
         = (snd (shape (original result)), fst (shape (original result)))
       ∧ dimensions_in_range self (snd (dimensions result)) (fst (dimensions result))
       ∧ (0 <= quality_score result <= 100)%Q).
Proof.
  intros Hgray run. unfold run, preprocess, preprocess_body.
  split; [|split; [|split]].
  - intros e. destruct (_ ≫= _); [discriminate|]. by intros [= <-].
  - intros Hload. destruct (load_image_from_url image_url) as [image|e]; [|done].
    by destruct (Hload image).
  - intros image -> Hdims. simpl. destruct (shape image) as [height width].
    simpl in Hdims.
    destruct (validate_dimensions_cases self height width) as [[_ ?]|[-> _]];
      [contradiction|done].
  - intros result. destruct (load_image_from_url image_url) as [image|e];
      [|discriminate].
    simpl. destruct (shape image) as [height width] eqn:Es.
    destruct (validate_dimensions_cases self height width) as [[-> Hin]|[-> _]];
      simpl; [|discriminate].
    destruct (normalize_brightness_contrast image) as [p1|]; simpl;
      [|discriminate].
    destruct (apply_adaptive_filtering p1) as [p2|]; simpl; [|discriminate].
    destruct (resize_image p2) as [p3|]; simpl; [|discriminate].
    intros [= <-]. simpl. rewrite Es. simpl.
    split; [done|]. split; [done|]. split; [done|].
    apply quality_score_bounds, Hgray.
Qed.

Lemma preprocess_result_valid_witness :
  ∃ result,
    preprocess unit (fun _ => (1080, 1920)%Z) (fun _ => Returns tt)
      (fun _ => [128; 128]%Z) (fun _ => [0; 0]%Q) Returns Returns Returns
      default_preprocessor "s3://image" = Returns result
    ∧ dimensions result = (1920, 1080)%Z
    ∧ (0 <= quality_score result <= 100)%Q.
Proof.
  assert (Hrun : ∃ result,
            preprocess unit (fun _ => (1080, 1920)%Z) (fun _ => Returns tt)
              (fun _ => [128; 128]%Z) (fun _ => [0; 0]%Q) Returns Returns Returns
              default_preprocessor "s3://image" = Returns result)
    by (eexists; reflexivity).
  destruct Hrun as [result Hrun]. exists result. split; [exact Hrun|].
  destruct (preprocess_result_valid unit (fun _ => (1080, 1920)%Z)
              (fun _ => Returns tt) (fun _ => [128; 128]%Z) (fun _ => [0; 0]%Q)
              Returns Returns Returns default_preprocessor "s3://image")
    as (_ & _ & _ & Hres).
  - intros _. split; [discriminate|]. repeat constructor; lia.
  - destruct (Hres result Hrun) as (_ & Hdims & _ & Hq).
    split; [exact Hdims|exact Hq].
Defined.
